(** * LRU cache (lru-cache.ts, errors.ts): a shallow embedding

  The cache of [lru-cache.ts] is a JavaScript [Map] from keys to node
  objects plus a doubly-linked list of those nodes between two sentinel
  nodes [head] and [tail].  Node objects are shared and mutated in place,
  so the embedding keeps an explicit object store: a node reference is a
  location, the store maps locations to node records, and every field
  read or write of the source is a read or write of the store.

  Methods are computations in a state-and-exception monad over the cache
  object; a thrown exception keeps the state reached so far, exactly as a
  JavaScript [throw] keeps the mutations done before it. *)

From Stdlib Require Import ZArith QArith String List Lia.
From Stdlib Require Qcanon.
From stdpp Require Import base option list gmap strings fin_maps pretty.

Local Open Scope Z_scope.

(** ** JavaScript values used by the cache *)

Module JS.

(** A runtime value of a generic TypeScript parameter: [null],
    [undefined], or a proper value of the carrier type. *)
Inductive js (A : Type) : Type :=
| Null
| Undefined
| Val (a : A).
Arguments Null {A}.
Arguments Undefined {A}.
Arguments Val {A} a.

(** [key === null || key === undefined] *)
Definition is_nullish {A} (x : js A) : bool :=
  match x with
  | Null | Undefined => true
  | Val _ => false
  end.

#[global] Instance js_eq_dec {A} `{EqDecision A} : EqDecision (js A).
Proof. solve_decision. Defined.

Definition js_to_sum {A} (x : js A) : (unit + unit) + A :=
  match x with
  | Null => inl (inl tt)
  | Undefined => inl (inr tt)
  | Val a => inr a
  end.

Definition js_of_sum {A} (x : (unit + unit) + A) : js A :=
  match x with
  | inl (inl _) => Null
  | inl (inr _) => Undefined
  | inr a => Val a
  end.

#[global] Instance js_countable {A} `{Countable A} : Countable (js A).
Proof.
  apply (inj_countable' js_to_sum js_of_sum).
  intros [| |a]; reflexivity.
Defined.

(** A JavaScript [number].  A finite double is a rational; the rationals
    over-approximate the finite doubles, which is all the constructor's
    test needs. *)
Inductive number : Type :=
| NaN
| Infinity (negative : bool)
| Finite (q : Q).

(** [Number.isInteger(n)] *)
Definition Number_isInteger (n : number) : bool :=
  match n with
  | Finite q => Pos.eqb (Qden (Qred q)) 1
  | _ => false
  end.

(** [n <= 0] (every comparison with [NaN] is false) *)
Definition number_le_zero (n : number) : bool :=
  match n with
  | NaN => false
  | Infinity negative => negative
  | Finite q => Qle_bool q 0
  end.

(** The integer an integral number denotes. *)
Definition number_to_Z (n : number) : Z :=
  match n with
  | Finite q => Qnum (Qred q)
  | _ => 0
  end.

Definition of_Z (z : Z) : number := Finite (inject_Z z).

(** "[n] is the integer [z]". *)
Definition is_integer (n : number) (z : Z) : Prop :=
  exists q, n = Finite q /\ Qeq q (inject_Z z).

(** "[n] is a positive integer": it denotes some integer [z > 0]. *)
Definition positive_integer (n : number) : Prop :=
  exists z : Z, 0 < z /\ exists q, n = Finite q /\ Qeq q (inject_Z z).

End JS.
Import JS.

(** ** errors.ts *)

Module Errors.
Section Errors.
Context {K : Type}.

(** The exceptions the cache can raise.  [LRUCacheError] is the base
    class; [InvalidCapacityError] and [KeyNotFoundError] extend it.
    A wrapped error is an [LRUCacheError] built in a [catch] block from
    a context prefix, the key at hand and the caught error; the text of
    the message is presentation and is not modelled further.
    [TypeError] is the engine's own error, for a property access on
    [null] or a key that cannot be converted to text. *)
Inductive exn : Type :=
| TypeError
| LRUCacheError (message : string)
| LRUCacheErrorWrapping (context : string) (key : option (js K)) (cause : exn)
| InvalidCapacityError (capacity : number)
| KeyNotFoundError (key : js K).

Inductive error_class : Type :=
| CTypeError
| CLRUCacheError
| CInvalidCapacityError
| CKeyNotFoundError.

(** The class an exception object was constructed with. *)
Definition class_of (e : exn) : error_class :=
  match e with
  | TypeError => CTypeError
  | LRUCacheError _ => CLRUCacheError
  | LRUCacheErrorWrapping _ _ _ => CLRUCacheError
  | InvalidCapacityError _ => CInvalidCapacityError
  | KeyNotFoundError _ => CKeyNotFoundError
  end.

(** [this.name] as set by the constructors. *)
Definition name (e : exn) : string :=
  match class_of e with
  | CTypeError => "TypeError"
  | CLRUCacheError => "LRUCacheError"
  | CInvalidCapacityError => "InvalidCapacityError"
  | CKeyNotFoundError => "KeyNotFoundError"
  end.

(** [e instanceof c], following the [extends] chain. *)
Definition instanceof (e : exn) (c : error_class) : bool :=
  match c, class_of e with
  | CTypeError, CTypeError => true
  | CLRUCacheError, (CLRUCacheError | CInvalidCapacityError | CKeyNotFoundError) => true
  | CInvalidCapacityError, CInvalidCapacityError => true
  | CKeyNotFoundError, CKeyNotFoundError => true
  | _, _ => false
  end.

End Errors.
Arguments exn K : clear implicits.

(** *** Keys as text

    The messages embed the key: [String(key)] in the [catch] blocks of
    [get] and [put], and
    [typeof key === "object" ? JSON.stringify(key) : String(key)] in the
    constructor of [KeyNotFoundError].  For a primitive key neither
    conversion can fail.  For an object key [JSON.stringify] throws on a
    circular structure, on a [BigInt] field and when the key's [toJSON]
    throws, and [String] throws when the key has no usable [toString].
    The text produced is presentation; whether a conversion throws, and
    what, decides how the method ends.  A key type says which of its
    keys are objects and what the two conversions throw on each key
    ([None]: the conversion returns its text).  Conversions are taken not
    to touch the cache. *)
Class KeyText (K : Type) : Type := {
  typeof_object : K → bool;
  String_throws : K → option (exn K);
  JSON_stringify_throws : K → option (exn K)
}.

(** Strings are primitive keys: both conversions always return. *)
#[global] Instance string_KeyText : KeyText string := {|
  typeof_object := λ _, false;
  String_throws := λ _, None;
  JSON_stringify_throws := λ _, None
|}.

Section KeyText.
Context {K : Type} `{!KeyText K}.

(** [typeof key === "object"]; [typeof null] is ["object"]. *)
Definition typeof_is_object (key : js K) : bool :=
  match key with
  | Null => true
  | Undefined => false
  | Val k => typeof_object k
  end.

(** What [String(key)] throws, if anything; [null] and [undefined]
    convert to their names. *)
Definition String_error (key : js K) : option (exn K) :=
  match key with
  | Val k => String_throws k
  | _ => None
  end.

(** What [JSON.stringify(key)] throws, if anything. *)
Definition JSON_stringify_error (key : js K) : option (exn K) :=
  match key with
  | Val k => JSON_stringify_throws k
  | _ => None
  end.

(** What evaluating the message of [new KeyNotFoundError(key)] throws:
    [typeof key === "object" ? JSON.stringify(key) : String(key)]. *)
Definition description_error (key : js K) : option (exn K) :=
  if typeof_is_object key then JSON_stringify_error key else String_error key.

End KeyText.

End Errors.
Import Errors.

(** ** lru-cache.ts *)

Module LRU.

(** A node reference. *)
Definition loc := nat.

Section Cache.
Context {K : Type} `{Countable K} `{!KeyText K} {V : Type}.

(** [class LRUNode<K, V>]; [prev] and [next] are [LRUNode | null]. *)
Record LRUNode : Type := mkNode {
  key : js K;
  value : js V;
  prev : option loc;
  next : option loc
}.

Definition with_value (v : js V) (n : LRUNode) : LRUNode :=
  mkNode (key n) v (prev n) (next n).
Definition with_prev (p : option loc) (n : LRUNode) : LRUNode :=
  mkNode (key n) (value n) p (next n).
Definition with_next (x : option loc) (n : LRUNode) : LRUNode :=
  mkNode (key n) (value n) (prev n) x.

(** [class LRUCache<K, V>].  [capacity] holds the integer the constructor
    validated; [store] is the object store holding every node the cache
    ever allocated (evicted nodes are garbage, never reached again). *)
Record LRUCache : Type := mkCache {
  capacity : Z;
  cache : gmap (js K) loc;
  head : loc;
  tail : loc;
  store : gmap loc LRUNode
}.

Definition set_cache (m : gmap (js K) loc) (c : LRUCache) : LRUCache :=
  mkCache (capacity c) m (head c) (tail c) (store c).
Definition set_store (st : gmap loc LRUNode) (c : LRUCache) : LRUCache :=
  mkCache (capacity c) (cache c) (head c) (tail c) st.

(** *** Completions and the method monad *)

(** How a method call ends.  [Stuck] (a reference to no object) and
    [OutOfFuel] (a loop cut off by the fuel bound) are artefacts of the
    embedding with no JavaScript counterpart; no [catch] sees them. *)
Inductive completion (A : Type) : Type :=
| Normal (a : A)
| Throw (e : exn K)
| Stuck
| OutOfFuel.
Arguments Normal {A} a.
Arguments Throw {A} e.
Arguments Stuck {A}.
Arguments OutOfFuel {A}.

Definition M (A : Type) : Type := LRUCache -> completion A * LRUCache.

Definition ret {A} (a : A) : M A := fun c => (Normal a, c).

Definition bind {A B} (m : M A) (f : A -> M B) : M B :=
  fun c =>
    match m c with
    | (Normal a, c') => f a c'
    | (Throw e, c') => (Throw e, c')
    | (Stuck, c') => (Stuck, c')
    | (OutOfFuel, c') => (OutOfFuel, c')
    end.

Definition throw {A} (e : exn K) : M A := fun c => (Throw e, c).

(** [try { m } catch (error) { h error }] *)
Definition try_catch {A} (m : M A) (h : exn K -> M A) : M A :=
  fun c =>
    match m c with
    | (Throw e, c') => h e c'
    | r => r
    end.

Notation "'let*' x := m 'in' k" := (bind m (fun x => k))
  (at level 10, x name, m at level 100, k at level 200).
Notation "m ;; k" := (bind m (fun _ => k))
  (at level 100, k at level 200, right associativity).

(** *** Field and map accesses *)

Definition read (l : loc) : M LRUNode :=
  fun c =>
    match store c !! l with
    | Some n => (Normal n, c)
    | None => (Stuck, c)
    end.

Definition modify (f : LRUNode -> LRUNode) (l : loc) : M unit :=
  fun c =>
    match store c !! l with
    | Some _ => (Normal tt, set_store (alter f l (store c)) c)
    | None => (Stuck, c)
    end.

Definition get_key (l : loc) : M (js K) := let* n := read l in ret (key n).
Definition get_value (l : loc) : M (js V) := let* n := read l in ret (value n).
Definition get_prev (l : loc) : M (option loc) := let* n := read l in ret (prev n).
Definition get_next (l : loc) : M (option loc) := let* n := read l in ret (next n).
Definition set_value (l : loc) (v : js V) : M unit := modify (with_value v) l.
Definition set_prev (l : loc) (p : option loc) : M unit := modify (with_prev p) l.
Definition set_next (l : loc) (x : option loc) : M unit := modify (with_next x) l.

(** A property access through a reference that may be [null]. *)
Definition nonnull (r : option loc) : M loc :=
  match r with
  | Some l => ret l
  | None => throw TypeError
  end.

(** [new LRUNode(key, value)]: a fresh object with both links [null]. *)
Definition new_LRUNode (k : js K) (v : js V) : M loc :=
  fun c =>
    let l := fresh (dom (store c)) in
    (Normal l, set_store (<[l := mkNode k v None None]> (store c)) c).

Definition this_head : M loc := fun c => (Normal (head c), c).
Definition this_tail : M loc := fun c => (Normal (tail c), c).
Definition this_capacity : M Z := fun c => (Normal (capacity c), c).
Definition cache_get (k : js K) : M (option loc) := fun c => (Normal (cache c !! k), c).
Definition cache_set (k : js K) (l : loc) : M unit :=
  fun c => (Normal tt, set_cache (<[k := l]> (cache c)) c).
Definition cache_delete (k : js K) : M unit :=
  fun c => (Normal tt, set_cache (delete k (cache c)) c).
Definition cache_clear : M unit := fun c => (Normal tt, set_cache ∅ c).
Definition cache_size : M nat := fun c => (Normal (size (cache c)), c).

(** An expression evaluated for the exception it may raise. *)
Definition raising (r : option (exn K)) : M unit :=
  match r with
  | Some e => throw e
  | None => ret tt
  end.

(** [String(key)] inside a message template. *)
Definition String_ (key : js K) : M unit := raising (String_error key).

(** [new KeyNotFoundError(key)]: the message is built first, and the
    object exists only if that succeeds. *)
Definition new_KeyNotFoundError (key : js K) : M (exn K) :=
  raising (description_error key);;
  ret (KeyNotFoundError key).

(** *** The methods *)

(** [constructor(capacity: number)] *)
Definition constructor (capacity : number) : completion LRUCache :=
  if negb (Number_isInteger capacity) || number_le_zero capacity then
    Throw (InvalidCapacityError capacity)
  else
    let h : loc := 0%nat in
    let t : loc := 1%nat in
    Normal (mkCache (number_to_Z capacity) ∅ h t
              (<[t := mkNode Null Null (Some h) None]>
                 (<[h := mkNode Null Null None (Some t)]> ∅))).

(** [private removeNode(node)] *)
Definition removeNode (node : loc) : M unit :=
  let* p := get_prev node in
  let* x := get_next node in
  match p, x with
  | Some prev, Some next =>
      set_next prev (Some next);;
      set_prev next (Some prev)
  | _, _ => throw (LRUCacheError "Invalid node state: missing links")
  end.

(** [private addToFront(node)] *)
Definition addToFront (node : loc) : M unit :=
  let* h := this_head in
  let* hn := get_next h in
  match hn with
  | None => throw (LRUCacheError "Invalid cache state: missing head link")
  | Some _ =>
      let* h1 := this_head in
      set_prev node (Some h1);;
      let* h2 := this_head in
      let* hn2 := get_next h2 in
      set_next node hn2;;
      let* h3 := this_head in
      let* hn3 := get_next h3 in
      let* first := nonnull hn3 in
      set_prev first (Some node);;
      let* h4 := this_head in
      set_next h4 (Some node)
  end.

(** [get(key: K): V] *)
Definition get (key : js K) : M (js V) :=
  let* node := cache_get key in
  match node with
  | None =>
      let* error := new_KeyNotFoundError key in
      throw error
  | Some node =>
      try_catch
        (removeNode node;;
         addToFront node;;
         get_value node)
        (fun error =>
           String_ key;;
           throw (LRUCacheErrorWrapping "Error accessing key" (Some key) error))
  end.

(** [getSafe(key: K): V | undefined] *)
Definition getSafe (key : js K) : M (js V) :=
  try_catch (get key)
    (fun error =>
       if instanceof error CKeyNotFoundError then ret Undefined
       else throw error).

(** [put(key: K, value: V): void].  [this.tail.prev!] is passed to
    [removeNode] unchecked: were it [null], the first property access on
    it would raise a [TypeError], which the [catch] block wraps.  The
    [catch] block evaluates [String(key)] before it can throw its
    wrapper. *)
Definition put (key : js K) (value : js V) : M unit :=
  if is_nullish key then
    throw (LRUCacheError "Key cannot be null or undefined")
  else
    try_catch
      (let* existingNode := cache_get key in
       match existingNode with
       | Some existingNode =>
           set_value existingNode value;;
           removeNode existingNode;;
           addToFront existingNode
       | None =>
           let* newNode := new_LRUNode key value in
           let* sz := cache_size in
           let* cap := this_capacity in
           (if Z.of_nat sz >=? cap then
              let* t := this_tail in
              let* tp := get_prev t in
              let* lru := nonnull tp in
              removeNode lru;;
              let* k := get_key lru in
              cache_delete k
            else ret tt);;
           cache_set key newNode;;
           addToFront newNode
       end)
      (fun error =>
         String_ key;;
         throw (LRUCacheErrorWrapping "Error putting key" (Some key) error)).

(** [size(): number] *)
Definition size_ (c : LRUCache) : nat := size (cache c).

(** [has(key: K): boolean] *)
Definition has (key : js K) (c : LRUCache) : bool :=
  bool_decide (is_Some (cache c !! key)).

(** [clear(): void] *)
Definition clear : M unit :=
  try_catch
    (cache_clear;;
     let* h := this_head in
     let* t := this_tail in
     set_next h (Some t);;
     let* t' := this_tail in
     let* h' := this_head in
     set_prev t' (Some h'))
    (fun error =>
       throw (LRUCacheErrorWrapping "Error clearing cache" None error)).

(** The [while (current !== this.tail)] loop of [keys], cut off after
    [fuel] iterations. *)
Fixpoint keys_loop (fuel : nat) (current : option loc) (keys : list (js K))
  : M (list (js K)) :=
  match fuel with
  | O => fun c => (OutOfFuel, c)
  | S fuel' =>
      let* t := this_tail in
      if decide (current = Some t) then ret keys
      else
        match current with
        | None => throw (LRUCacheError "Invalid cache state: broken link in chain")
        | Some cur =>
            let* k := get_key cur in
            let* nxt := get_next cur in
            keys_loop fuel' nxt (keys ++ [k])
        end
  end.

(** [keys(): K[]] *)
Definition keys (fuel : nat) : M (list (js K)) :=
  try_catch
    (let* h := this_head in
     let* current := get_next h in
     keys_loop fuel current [])
    (fun error =>
       throw (LRUCacheErrorWrapping "Error getting keys" None error)).

(** ** Specification vocabulary *)

(** *** Reading links, keys and values off a store *)

Definition nxt (st : gmap loc LRUNode) (l : loc) : option loc :=
  n ← st !! l; next n.
Definition prv (st : gmap loc LRUNode) (l : loc) : option loc :=
  n ← st !! l; prev n.
Definition key_of (st : gmap loc LRUNode) (l : loc) : js K :=
  from_option key Null (st !! l).
Definition value_of (st : gmap loc LRUNode) (l : loc) : js V :=
  from_option value Null (st !! l).

(** [linked st ch]: consecutive nodes of the chain [ch] point at each
    other, forwards through [next] and backwards through [prev]. *)
Fixpoint linked (st : gmap loc LRUNode) (ch : list loc) : Prop :=
  match ch with
  | a :: rest =>
      match rest with
      | b :: _ => nxt st a = Some b ∧ prv st b = Some a ∧ linked st rest
      | [] => True
      end
  | [] => True
  end.

(** [same_keys st st']: [st'] holds the same objects as [st], with the
    same keys (links and values may differ). *)
Definition same_keys (st st' : gmap loc LRUNode) : Prop :=
  (∀ l, key_of st' l = key_of st l) ∧ (∀ l, is_Some (st' !! l) ↔ is_Some (st !! l)).

(** *** The representation invariant

    [inv c ls]: the recency order of [c] is the list of nodes [ls],
    chained between the two sentinels, and the [Map] indexes exactly
    those nodes by their keys. *)
Record inv (c : LRUCache) (ls : list loc) : Prop := mkInv {
  inv_capacity : 0 < capacity c;
  inv_nodup : NoDup (head c :: ls ++ [tail c]);
  inv_linked : linked (store c) (head c :: ls ++ [tail c]);
  inv_index : ∀ k l, cache c !! k = Some l ↔ l ∈ ls ∧ key_of (store c) l = k;
  inv_size : size (cache c) = length ls;
  inv_bound : Z.of_nat (length ls) ≤ capacity c;
  inv_valid : ∀ l, l ∈ ls → is_nullish (key_of (store c) l) = false
}.

Definition wf (c : LRUCache) : Prop := ∃ ls, inv c ls.

(** *** What a miss throws *)

(** The exception [get] ends with on an absent key: the
    [KeyNotFoundError], unless building its message threw first. *)
Definition miss_exception (k : js K) : exn K :=
  match description_error k with
  | Some e => e
  | None => KeyNotFoundError k
  end.

(** *** Reachable states *)

(** One call of a public method. *)
Inductive op : Type :=
| OpPut (k : js K) (v : js V)
| OpGet (k : js K)
| OpGetSafe (k : js K)
| OpHas (k : js K)
| OpSize
| OpClear
| OpKeys (fuel : nat).

(** The cache object after the call, whether it returned or threw. *)
Definition exec (o : op) (c : LRUCache) : LRUCache :=
  match o with
  | OpPut k v => snd (put k v c)
  | OpGet k => snd (get k c)
  | OpGetSafe k => snd (getSafe k c)
  | OpHas _ => c
  | OpSize => c
  | OpClear => snd (clear c)
  | OpKeys fuel => snd (keys fuel c)
  end.

Inductive reachable : LRUCache → Prop :=
| reachable_new n c : constructor n = Normal c → reachable c
| reachable_step o c : reachable c → reachable (exec o c).

(** The exception a call ends with, if it throws. *)
Definition thrown_by {A} (r : completion A * LRUCache) : option (exn K) :=
  match fst r with
  | Throw e => Some e
  | _ => None
  end.

Definition thrown (o : op) (c : LRUCache) : option (exn K) :=
  match o with
  | OpPut k v => thrown_by (put k v c)
  | OpGet k => thrown_by (get k c)
  | OpGetSafe k => thrown_by (getSafe k c)
  | OpHas _ => None
  | OpSize => None
  | OpClear => thrown_by (clear c)
  | OpKeys fuel => thrown_by (keys fuel c)
  end.

(** ** Store lemmas *)

Lemma nxt_alter_next_eq st l v :
  is_Some (st !! l) → nxt (alter (with_next v) l st) l = v.
Proof. intros [n Hn]. unfold nxt. by rewrite lookup_alter_eq, Hn. Qed.

Lemma nxt_alter_next_ne st l l' v :
  l ≠ l' → nxt (alter (with_next v) l st) l' = nxt st l'.
Proof. intros. unfold nxt. by rewrite lookup_alter_ne. Qed.

Lemma nxt_alter_prev st l l' v : nxt (alter (with_prev v) l st) l' = nxt st l'.
Proof.
  unfold nxt. rewrite lookup_alter. case_decide; [subst|done].
  by destruct (st !! l').
Qed.

Lemma nxt_alter_value st l l' v : nxt (alter (with_value v) l st) l' = nxt st l'.
Proof.
  unfold nxt. rewrite lookup_alter. case_decide; [subst|done].
  by destruct (st !! l').
Qed.

Lemma prv_alter_prev_eq st l v :
  is_Some (st !! l) → prv (alter (with_prev v) l st) l = v.
Proof. intros [n Hn]. unfold prv. by rewrite lookup_alter_eq, Hn. Qed.

Lemma prv_alter_prev_ne st l l' v :
  l ≠ l' → prv (alter (with_prev v) l st) l' = prv st l'.
Proof. intros. unfold prv. by rewrite lookup_alter_ne. Qed.

Lemma prv_alter_next st l l' v : prv (alter (with_next v) l st) l' = prv st l'.
Proof.
  unfold prv. rewrite lookup_alter. case_decide; [subst|done].
  by destruct (st !! l').
Qed.

Lemma prv_alter_value st l l' v : prv (alter (with_value v) l st) l' = prv st l'.
Proof.
  unfold prv. rewrite lookup_alter. case_decide; [subst|done].
  by destruct (st !! l').
Qed.

Lemma key_of_alter st f l l' :
  (∀ n, key (f n) = key n) → key_of (alter f l st) l' = key_of st l'.
Proof.
  intros Hf. unfold key_of. rewrite lookup_alter. case_decide; [subst|done].
  destruct (st !! l'); simpl; auto.
Qed.

Lemma value_of_alter_ne st f l l' :
  l ≠ l' → value_of (alter f l st) l' = value_of st l'.
Proof. intros. unfold value_of. by rewrite lookup_alter_ne. Qed.

Lemma value_of_alter_links st f l l' :
  (∀ n, value (f n) = value n) → value_of (alter f l st) l' = value_of st l'.
Proof.
  intros Hf. unfold value_of. rewrite lookup_alter. case_decide; [subst|done].
  destruct (st !! l'); simpl; auto.
Qed.

Lemma value_of_alter_value st l v :
  is_Some (st !! l) → value_of (alter (with_value v) l st) l = v.
Proof. intros [n Hn]. unfold value_of. by rewrite lookup_alter_eq, Hn. Qed.

Lemma is_Some_alter (st : gmap loc LRUNode) (f : LRUNode → LRUNode) l l' :
  is_Some (alter f l st !! l') ↔ is_Some (st !! l').
Proof.
  rewrite lookup_alter. case_decide; [subst|done].
  by rewrite fmap_is_Some.
Qed.

Lemma nxt_is_Some st l x : nxt st l = Some x → is_Some (st !! l).
Proof. unfold nxt. destruct (st !! l); [eauto|done]. Qed.

Lemma prv_is_Some st l x : prv st l = Some x → is_Some (st !! l).
Proof. unfold prv. destruct (st !! l); [eauto|done]. Qed.

Lemma fresh_not_in_store (st : gmap loc LRUNode) : st !! fresh (dom st) = None.
Proof. apply not_elem_of_dom, is_fresh. Qed.

(** ** Chains *)

Lemma linked_cons st a b rest :
  linked st (a :: b :: rest)
  ↔ nxt st a = Some b ∧ prv st b = Some a ∧ linked st (b :: rest).
Proof. done. Qed.

Lemma linked_app st l1 x l2 :
  linked st (l1 ++ x :: l2) ↔ linked st (l1 ++ [x]) ∧ linked st (x :: l2).
Proof.
  induction l1 as [|a l1 IH]; simpl app.
  - simpl. tauto.
  - destruct l1 as [|b l1]; simpl app in *.
    + rewrite !linked_cons. simpl. tauto.
    + rewrite !linked_cons, IH. tauto.
Qed.

Lemma linked_in_store st ch l :
  linked st ch → (2 ≤ length ch)%nat → l ∈ ch → is_Some (st !! l).
Proof.
  revert l. induction ch as [|a ch IH]; intros l Hl Hlen Hin; [simpl in *; lia|].
  destruct ch as [|b ch]; [simpl in *; lia|].
  apply linked_cons in Hl as (Ha & Hb & Hl).
  apply elem_of_cons in Hin as [->|Hin]; [by eapply nxt_is_Some|].
  destruct ch as [|b' ch].
  - apply list_elem_of_singleton in Hin as ->. by eapply prv_is_Some.
  - apply IH; [done|simpl; lia|done].
Qed.

(** Framing: a chain stays linked when the [next] of all but its last
    node and the [prev] of all but its first node are left alone. *)
Lemma linked_frame_cons st st' b l :
  linked st (b :: l) →
  (∀ x, x ∈ b :: l → nxt st' x = nxt st x) →
  (∀ x, x ∈ l → prv st' x = prv st x) →
  linked st' (b :: l).
Proof.
  revert b. induction l as [|a l IH]; intros b Hl Hn Hp; [done|].
  apply linked_cons in Hl as (Ha & Hb & Hl). apply linked_cons.
  split_and!.
  - rewrite Hn; [done|]. apply elem_of_cons; auto.
  - rewrite Hp; [done|]. apply elem_of_cons; auto.
  - apply IH; [done| |].
    + intros x Hx. apply Hn. apply elem_of_cons; auto.
    + intros x Hx. apply Hp. apply elem_of_cons; auto.
Qed.

Lemma linked_frame_snoc st st' l a :
  linked st (l ++ [a]) →
  (∀ x, x ∈ l → nxt st' x = nxt st x) →
  (∀ x, x ∈ l ++ [a] → prv st' x = prv st x) →
  linked st' (l ++ [a]).
Proof.
  induction l as [|b l IH]; intros Hl Hn Hp; [done|].
  simpl app in *. destruct l as [|b' l]; simpl app in *.
  - apply linked_cons in Hl as (Ha & Hb & Hl). apply linked_cons.
    split_and!; [rewrite Hn|rewrite Hp|done]; try done;
      rewrite ?elem_of_cons; auto.
  - apply linked_cons in Hl as (Ha & Hb & Hl). apply linked_cons.
    split_and!.
    + rewrite Hn; [done|]. apply elem_of_cons; auto.
    + rewrite Hp; [done|]. rewrite !elem_of_cons; auto.
    + apply IH; [done| |].
      * intros x Hx. apply Hn. apply elem_of_cons; auto.
      * intros x Hx. apply Hp. apply elem_of_cons; auto.
Qed.

(** ** Running the primitives *)

Lemma bind_normal {A B} (m : M A) (f : A → M B) c a c' :
  m c = (Normal a, c') → bind m f c = f a c'.
Proof. intros Hm. unfold bind. by rewrite Hm. Qed.

Lemma run_get_next c l :
  is_Some (store c !! l) → get_next l c = (Normal (nxt (store c) l), c).
Proof. intros [n Hn]. unfold get_next, bind, read, nxt. by rewrite Hn. Qed.

Lemma run_get_prev c l :
  is_Some (store c !! l) → get_prev l c = (Normal (prv (store c) l), c).
Proof. intros [n Hn]. unfold get_prev, bind, read, prv. by rewrite Hn. Qed.

Lemma run_get_key c l :
  is_Some (store c !! l) → get_key l c = (Normal (key_of (store c) l), c).
Proof. intros [n Hn]. unfold get_key, bind, read, key_of. by rewrite Hn. Qed.

Lemma run_get_value c l :
  is_Some (store c !! l) → get_value l c = (Normal (value_of (store c) l), c).
Proof. intros [n Hn]. unfold get_value, bind, read, value_of. by rewrite Hn. Qed.

Lemma run_modify c f l :
  is_Some (store c !! l) →
  modify f l c = (Normal tt, set_store (alter f l (store c)) c).
Proof. intros [n Hn]. unfold modify. by rewrite Hn. Qed.

Ltac run_with lem := erewrite bind_normal; [|apply lem].
Ltac simp_cache :=
  cbn [store head tail cache capacity set_store set_cache] in *.

Lemma run_removeNode c x a b :
  prv (store c) x = Some a →
  nxt (store c) x = Some b →
  is_Some (store c !! a) →
  is_Some (store c !! b) →
  removeNode x c
  = (Normal tt,
     set_store (alter (with_prev (Some a)) b
                  (alter (with_next (Some b)) a (store c))) c).
Proof.
  intros Hp Hn Ha Hb. unfold removeNode.
  run_with run_get_prev; [|by eapply prv_is_Some].
  run_with run_get_next; [|by eapply nxt_is_Some].
  rewrite Hp, Hn. unfold set_next.
  run_with run_modify; [|done].
  unfold set_prev. rewrite run_modify; [done|].
  simp_cache. by apply is_Some_alter.
Qed.

Lemma run_addToFront c x f :
  nxt (store c) (head c) = Some f →
  is_Some (store c !! x) →
  is_Some (store c !! f) →
  x ≠ head c →
  addToFront x c
  = (Normal tt,
     set_store (alter (with_next (Some x)) (head c)
                  (alter (with_prev (Some x)) f
                     (alter (with_next (Some f)) x
                        (alter (with_prev (Some (head c))) x (store c))))) c).
Proof.
  intros Hh Hx Hf Hne. unfold addToFront.
  assert (Hhd : is_Some (store c !! head c)) by by eapply nxt_is_Some.
  unfold this_head at 1. unfold bind at 1.
  run_with run_get_next; [|done].
  rewrite Hh.
  unfold this_head at 1. unfold bind at 1. unfold set_prev.
  run_with run_modify; [|done].
  unfold this_head at 1. unfold bind at 1.
  run_with run_get_next; [|simp_cache; by apply is_Some_alter].
  simp_cache. rewrite nxt_alter_prev, Hh.
  unfold set_next. run_with run_modify; [|simp_cache; by apply is_Some_alter].
  unfold this_head at 1. unfold bind at 1.
  run_with run_get_next; [|simp_cache; by rewrite !is_Some_alter].
  simp_cache. rewrite nxt_alter_next_ne, nxt_alter_prev, Hh by done.
  unfold nonnull. unfold ret at 1. unfold bind at 1.
  run_with run_modify; [|simp_cache; by rewrite !is_Some_alter].
  unfold this_head at 1. unfold bind at 1.
  rewrite run_modify; [done|]. simp_cache. by rewrite !is_Some_alter.
Qed.

(** ** Unlinking and relinking preserve the chain *)

Lemma linked_remove st pre a x b post :
  NoDup (pre ++ a :: x :: b :: post) →
  linked st (pre ++ a :: x :: b :: post) →
  linked (alter (with_prev (Some a)) b (alter (with_next (Some b)) a st))
    (pre ++ a :: b :: post).
Proof.
  intros Hnd Hl.
  apply linked_app in Hl as [Hpre Hl].
  apply linked_cons in Hl as (Hax & Hxa & Hl).
  apply linked_cons in Hl as (Hxb & Hbx & Hl).
  apply NoDup_app in Hnd as (Hnd1 & Hdisj & Hnd2).
  apply NoDup_cons in Hnd2 as [Ha Hnd2].
  apply NoDup_cons in Hnd2 as [Hx Hnd2].
  apply NoDup_cons in Hnd2 as [Hb Hnd2].
  assert (a ≠ b) as Hab by (intros ->; apply Ha; rewrite !elem_of_cons; auto).
  assert (is_Some (st !! a)) by by eapply nxt_is_Some.
  assert (is_Some (st !! b)) by by eapply prv_is_Some.
  apply linked_app. split; [|apply linked_cons; split_and!].
  - eapply linked_frame_snoc; [exact Hpre| |].
    + intros y Hy. rewrite nxt_alter_prev, nxt_alter_next_ne; [done|].
      intros ->. eapply Hdisj; [done|]. apply elem_of_cons; auto.
    + intros y Hy. rewrite prv_alter_prev_ne, prv_alter_next; [done|].
      intros ->. apply elem_of_app in Hy as [Hy|Hy].
      * eapply Hdisj; [done|]. rewrite !elem_of_cons; auto.
      * apply list_elem_of_singleton in Hy. done.
  - by rewrite nxt_alter_prev, nxt_alter_next_eq.
  - rewrite prv_alter_prev_eq; [done|]. by apply is_Some_alter.
  - eapply linked_frame_cons; [exact Hl| |].
    + intros y Hy. rewrite nxt_alter_prev, nxt_alter_next_ne; [done|].
      intros ->. apply Ha. rewrite !elem_of_cons. apply elem_of_cons in Hy. tauto.
    + intros y Hy. rewrite prv_alter_prev_ne, prv_alter_next; [done|].
      intros ->. done.
Qed.

Lemma linked_add_front st h x f rest :
  NoDup (h :: x :: f :: rest) →
  is_Some (st !! x) →
  linked st (h :: f :: rest) →
  linked (alter (with_next (Some x)) h
            (alter (with_prev (Some x)) f
               (alter (with_next (Some f)) x
                  (alter (with_prev (Some h)) x st))))
    (h :: x :: f :: rest).
Proof.
  intros Hnd Hx Hl.
  apply linked_cons in Hl as (Hhf & Hfh & Hl).
  apply NoDup_cons in Hnd as [Hh Hnd].
  apply NoDup_cons in Hnd as [Hxn Hnd].
  apply NoDup_cons in Hnd as [Hfn Hnd].
  rewrite !elem_of_cons in Hh. rewrite !elem_of_cons in Hxn.
  assert (h ≠ x) by naive_solver.
  assert (h ≠ f) by naive_solver.
  assert (x ≠ f) by naive_solver.
  assert (f ≠ x) by naive_solver.
  assert (is_Some (st !! h)) by by eapply nxt_is_Some.
  assert (is_Some (st !! f)) by by eapply prv_is_Some.
  apply linked_cons; split_and!; [| |apply linked_cons; split_and!].
  - rewrite nxt_alter_next_eq; [done|]. by rewrite !is_Some_alter.
  - rewrite prv_alter_next, prv_alter_prev_ne, prv_alter_next by done.
    by rewrite prv_alter_prev_eq.
  - rewrite nxt_alter_next_ne, nxt_alter_prev by done.
    rewrite nxt_alter_next_eq; [done|]. by rewrite is_Some_alter.
  - rewrite prv_alter_next, prv_alter_prev_eq; [done|]. by rewrite !is_Some_alter.
  - eapply linked_frame_cons; [exact Hl| |].
    + intros y Hy.
      rewrite nxt_alter_next_ne, nxt_alter_prev, nxt_alter_next_ne, nxt_alter_prev;
        [done| |].
      * intros ->. apply Hxn. apply elem_of_cons in Hy. tauto.
      * intros ->. apply Hh. apply elem_of_cons in Hy. tauto.
    + intros y Hy.
      rewrite prv_alter_next, prv_alter_prev_ne, prv_alter_next, prv_alter_prev_ne;
        [done| |].
      * intros ->. tauto.
      * intros ->. done.
Qed.

Lemma linked_ext st st' ch :
  (∀ l, l ∈ ch → nxt st' l = nxt st l) →
  (∀ l, l ∈ ch → prv st' l = prv st l) →
  linked st ch → linked st' ch.
Proof.
  intros Hn Hp Hl. destruct ch as [|a ch]; [done|].
  eapply linked_frame_cons; [exact Hl|done|].
  intros y Hy. apply Hp. apply elem_of_cons; auto.
Qed.

Lemma linked_unlink st ch1 x ch2 :
  ch1 ≠ [] → ch2 ≠ [] →
  NoDup (ch1 ++ x :: ch2) →
  linked st (ch1 ++ x :: ch2) →
  ∃ a b,
    last ch1 = Some a ∧ ch2 !! 0%nat = Some b ∧
    prv st x = Some a ∧ nxt st x = Some b ∧
    is_Some (st !! a) ∧ is_Some (st !! b) ∧
    linked (alter (with_prev (Some a)) b (alter (with_next (Some b)) a st))
      (ch1 ++ ch2).
Proof.
  intros H1 H2 Hnd Hl.
  destruct ch1 as [|a pre _] using rev_ind; [done|].
  destruct ch2 as [|b post]; [done|].
  exists a, b. rewrite <- !app_assoc in *. simpl app in *.
  pose proof Hl as Hl'.
  apply linked_app in Hl' as [_ Hl'].
  apply linked_cons in Hl' as (Hax & Hxa & Hl').
  apply linked_cons in Hl' as (Hxb & Hbx & _).
  split_and!; try done.
  - apply last_snoc.
  - by eapply nxt_is_Some.
  - by eapply prv_is_Some.
  - by apply (linked_remove st pre a x b post).
Qed.

(** ** [keys] *)

Lemma keys_loop_state fuel current acc c :
  snd (keys_loop fuel current acc c) = c.
Proof.
  revert current acc. induction fuel as [|fuel IH]; intros current acc; [done|].
  simpl. unfold bind at 1, this_tail at 1.
  case_decide; [done|]. destruct current as [cur|]; [|done].
  destruct (store c !! cur) as [n|] eqn:Hcur.
  - run_with run_get_key; [|by rewrite Hcur].
    run_with run_get_next; [|by rewrite Hcur].
    apply IH.
  - unfold bind at 1. unfold get_key, bind, read. by rewrite Hcur.
Qed.

Lemma keys_state fuel c : snd (keys fuel c) = c.
Proof.
  unfold keys, try_catch.
  unfold this_head at 1. unfold bind at 1.
  destruct (store c !! head c) as [n|] eqn:Hh.
  - run_with run_get_next; [|by rewrite Hh].
    pose proof (keys_loop_state fuel (nxt (store c) (head c)) [] c) as Hs.
    destruct (keys_loop fuel (nxt (store c) (head c)) [] c) as [[ks|e| |] c'];
      simpl in *; by subst.
  - unfold get_next, bind, read. by rewrite Hh.
Qed.

Lemma run_keys_loop c rest :
  ∀ p acc fuel,
    linked (store c) (p :: rest ++ [tail c]) →
    tail c ∉ rest →
    (length rest < fuel)%nat →
    keys_loop fuel (nxt (store c) p) acc c
    = (Normal (acc ++ (key_of (store c) <$> rest)), c).
Proof.
  induction rest as [|x rest IH]; intros p acc fuel Hl Ht Hfuel;
    (destruct fuel as [|fuel]; [simpl in Hfuel; lia|]); simpl app in Hl.
  - apply linked_cons in Hl as (Hp & _ & _). rewrite Hp. simpl.
    unfold bind, this_tail. rewrite decide_True by done.
    by rewrite app_nil_r.
  - apply linked_cons in Hl as (Hp & Hx & Hl). rewrite Hp. simpl.
    unfold bind at 1, this_tail at 1.
    rewrite decide_False; [|intros [= ->]; apply Ht; apply elem_of_cons; auto].
    assert (is_Some (store c !! x)) by by eapply prv_is_Some.
    run_with run_get_key; [|done].
    run_with run_get_next; [|done].
    rewrite IH; [|done| |simpl in Hfuel; lia].
    + by rewrite <- app_assoc.
    + intros Hin. apply Ht. apply elem_of_cons; auto.
Qed.

Lemma run_keys c ls fuel :
  inv c ls → (length ls < fuel)%nat →
  keys fuel c = (Normal (key_of (store c) <$> ls), c).
Proof.
  intros Hinv Hfuel. unfold keys, try_catch.
  unfold this_head at 1. unfold bind at 1.
  pose proof (inv_linked _ _ Hinv) as Hl.
  pose proof (inv_nodup _ _ Hinv) as Hnd.
  assert (is_Some (store c !! head c)) as Hh.
  { eapply linked_in_store; [exact Hl| |apply elem_of_cons; auto].
    simpl. rewrite length_app. simpl. lia. }
  run_with run_get_next; [|done].
  rewrite (run_keys_loop c ls); [done|done| |done].
  apply NoDup_cons in Hnd as [_ Hnd].
  apply NoDup_app in Hnd as (_ & Hd & _).
  intros Hin. apply (Hd _ Hin). apply list_elem_of_singleton. done.
Qed.

Lemma run_keys_loop_short c rest :
  ∀ p acc fuel,
    linked (store c) (p :: rest ++ [tail c]) →
    tail c ∉ rest →
    (fuel ≤ length rest)%nat →
    keys_loop fuel (nxt (store c) p) acc c = (OutOfFuel, c).
Proof.
  induction rest as [|x rest IH]; intros p acc fuel Hl Ht Hfuel;
    (destruct fuel as [|fuel]; [done|]); simpl app in Hl; simpl in Hfuel;
    [lia|].
  apply linked_cons in Hl as (Hp & Hx & Hl). rewrite Hp. simpl.
  unfold bind at 1, this_tail at 1.
  rewrite decide_False; [|intros [= ->]; apply Ht; apply elem_of_cons; auto].
  assert (is_Some (store c !! x)) by by eapply prv_is_Some.
  run_with run_get_key; [|done].
  run_with run_get_next; [|done].
  apply IH; [done| |lia].
  intros Hin. apply Ht. apply elem_of_cons; auto.
Qed.

Lemma run_keys_short c ls fuel :
  inv c ls → (fuel ≤ length ls)%nat → keys fuel c = (OutOfFuel, c).
Proof.
  intros Hinv Hfuel. unfold keys, try_catch.
  unfold this_head at 1. unfold bind at 1.
  pose proof (inv_linked _ _ Hinv) as Hl.
  pose proof (inv_nodup _ _ Hinv) as Hnd.
  assert (is_Some (store c !! head c)) as Hh.
  { eapply linked_in_store; [exact Hl| |apply elem_of_cons; auto].
    simpl. rewrite length_app. simpl. lia. }
  run_with run_get_next; [|done].
  rewrite (run_keys_loop_short c ls); [done|done| |done].
  apply NoDup_cons in Hnd as [_ Hnd].
  apply NoDup_app in Hnd as (_ & Hd & _).
  intros Hin. apply (Hd _ Hin). apply list_elem_of_singleton. done.
Qed.

(** ** Unlinking and relinking inside a cache object *)

Lemma try_catch_normal {A} (m : M A) h c a c' :
  m c = (Normal a, c') → try_catch m h c = (Normal a, c').
Proof. intros Hm. unfold try_catch. by rewrite Hm. Qed.

Lemma same_keys_refl st : same_keys st st.
Proof. by split. Qed.

Lemma same_keys_trans st1 st2 st3 :
  same_keys st1 st2 → same_keys st2 st3 → same_keys st1 st3.
Proof.
  intros [Hk1 Hd1] [Hk2 Hd2]. split; intros l.
  - by rewrite Hk2, Hk1.
  - by rewrite Hd2, Hd1.
Qed.

Lemma same_keys_alter st f l :
  (∀ n, key (f n) = key n) → same_keys st (alter f l st).
Proof.
  intros Hf. split; intros l'.
  - by apply key_of_alter.
  - apply is_Some_alter.
Qed.

Lemma chain_elem_of (h t : loc) ls l :
  l ∈ h :: ls ++ [t] ↔ l = h ∨ l ∈ ls ∨ l = t.
Proof. by rewrite elem_of_cons, elem_of_app, list_elem_of_singleton. Qed.

Lemma inv_chain_in_store c ls l :
  inv c ls → l ∈ head c :: ls ++ [tail c] → is_Some (store c !! l).
Proof.
  intros Hinv Hin. eapply linked_in_store; [by apply inv_linked| |done].
  simpl. rewrite length_app. simpl. lia.
Qed.

Lemma inv_node_in_store c ls l :
  inv c ls → l ∈ ls → is_Some (store c !! l).
Proof.
  intros Hinv Hin. eapply inv_chain_in_store; [done|].
  rewrite elem_of_cons, elem_of_app. auto.
Qed.

Lemma unlink_spec c l1 x l2 :
  NoDup (head c :: (l1 ++ x :: l2) ++ [tail c]) →
  linked (store c) (head c :: (l1 ++ x :: l2) ++ [tail c]) →
  ∃ st',
    removeNode x c = (Normal tt, set_store st' c) ∧
    linked st' (head c :: (l1 ++ l2) ++ [tail c]) ∧
    same_keys (store c) st' ∧
    (∀ l, value_of st' l = value_of (store c) l).
Proof.
  intros Hnd Hl.
  assert (head c :: (l1 ++ x :: l2) ++ [tail c]
          = (head c :: l1) ++ x :: (l2 ++ [tail c])) as Heq
    by (simpl; by rewrite <- app_assoc).
  rewrite Heq in Hnd, Hl.
  assert (head c :: l1 ≠ []) as Hne1 by done.
  assert (l2 ++ [tail c] ≠ []) as Hne2 by by destruct l2.
  destruct (linked_unlink _ _ _ _ Hne1 Hne2 Hnd Hl)
    as (a & b & _ & _ & Hp & Hn & Ha & Hb & Hl').
  eexists. split_and!.
  - by apply run_removeNode.
  - by rewrite <- app_assoc.
  - eapply same_keys_trans; apply same_keys_alter; done.
  - intros l. by rewrite !value_of_alter_links.
Qed.

Lemma addfront_spec c ls x :
  NoDup (head c :: x :: ls ++ [tail c]) →
  linked (store c) (head c :: ls ++ [tail c]) →
  is_Some (store c !! x) →
  ∃ st',
    addToFront x c = (Normal tt, set_store st' c) ∧
    linked st' (head c :: (x :: ls) ++ [tail c]) ∧
    same_keys (store c) st' ∧
    (∀ l, value_of st' l = value_of (store c) l).
Proof.
  intros Hnd Hl Hx.
  destruct (ls ++ [tail c]) as [|f rest] eqn:Hrest;
    [by destruct ls|].
  pose proof Hl as Hl'. apply linked_cons in Hl' as (Hhf & Hfh & _).
  eexists. split_and!.
  - apply (run_addToFront c x f); [done|done|by eapply prv_is_Some|].
    apply NoDup_cons in Hnd as [Hh _]. rewrite elem_of_cons in Hh.
    intros ->. apply Hh. by left.
  - simpl app. rewrite Hrest. by apply linked_add_front.
  - eapply same_keys_trans; [|by apply same_keys_alter].
    eapply same_keys_trans; [|by apply same_keys_alter].
    eapply same_keys_trans; by apply same_keys_alter.
  - intros l. by rewrite !value_of_alter_links.
Qed.

(** Rebuilding the invariant after the order was permuted and the links
    rewired, with the [Map] untouched. *)
Lemma inv_rewire c ls ls' st' :
  inv c ls → ls' ≡ₚ ls →
  (∀ l, l ∈ ls → key_of st' l = key_of (store c) l) →
  linked st' (head c :: ls' ++ [tail c]) →
  inv (set_store st' c) ls'.
Proof.
  intros [Hcap Hnd Hl Hidx Hsz Hb Hv] Hperm Hk Hl'.
  split; simp_cache.
  - done.
  - by rewrite Hperm.
  - done.
  - intros k l. rewrite Hperm, Hidx. split; intros [Hin Hkey]; split; try done.
    + by rewrite Hk.
    + by rewrite <- Hk.
  - by rewrite Hperm.
  - by rewrite Hperm.
  - intros l Hin. rewrite Hperm in Hin. rewrite Hk by done. by apply Hv.
Qed.

Lemma inv_same_keys c ls ls' st' :
  inv c ls → ls' ≡ₚ ls →
  same_keys (store c) st' →
  linked st' (head c :: ls' ++ [tail c]) →
  inv (set_store st' c) ls'.
Proof.
  intros Hinv Hperm [Hk _] Hl. apply (inv_rewire c ls); [done|done| |done].
  intros l _. apply Hk.
Qed.

(** ** Moving a node to the front: [removeNode] then [addToFront] *)

Lemma touch_spec c l1 x l2 :
  inv c (l1 ++ x :: l2) →
  ∃ st1 st',
    removeNode x c = (Normal tt, set_store st1 c) ∧
    addToFront x (set_store st1 c) = (Normal tt, set_store st' c) ∧
    inv (set_store st' c) (x :: l1 ++ l2) ∧
    same_keys (store c) st' ∧
    (∀ l, value_of st' l = value_of (store c) l).
Proof.
  intros Hinv.
  pose proof (inv_nodup _ _ Hinv) as Hnd.
  pose proof (inv_linked _ _ Hinv) as Hl.
  destruct (unlink_spec c l1 x l2 Hnd Hl) as (st1 & Hrun1 & Hl1 & Hk1 & Hv1).
  assert (NoDup (head c :: x :: (l1 ++ l2) ++ [tail c])) as Hnd2.
  { change (NoDup (head c :: (x :: l1 ++ l2) ++ [tail c])).
    by rewrite (Permutation_middle l1 l2 x). }
  destruct (addfront_spec (set_store st1 c) (l1 ++ l2) x) as
    (st2 & Hrun2 & Hl2 & Hk2 & Hv2); simp_cache; [done|done| |].
  { apply Hk1. eapply inv_node_in_store; [done|].
    rewrite elem_of_app, elem_of_cons. auto. }
  exists st1, st2. split_and!; try done.
  - apply (inv_same_keys c (l1 ++ x :: l2)); [done| | |done].
    + by rewrite Permutation_middle.
    + by eapply same_keys_trans.
  - by eapply same_keys_trans.
  - intros l. by rewrite Hv2, Hv1.
Qed.

(** ** [get] on a hit *)

Lemma inv_lookup_split c ls k x :
  inv c ls → cache c !! k = Some x → ∃ l1 l2, ls = l1 ++ x :: l2.
Proof.
  intros Hinv Hk. apply (inv_index _ _ Hinv) in Hk as [Hx _].
  by apply list_elem_of_split.
Qed.

Lemma get_hit_spec c l1 x l2 k :
  inv c (l1 ++ x :: l2) → cache c !! k = Some x →
  ∃ st',
    key_of (store c) x = k ∧
    get k c = (Normal (value_of (store c) x), set_store st' c) ∧
    inv (set_store st' c) (x :: l1 ++ l2) ∧
    same_keys (store c) st' ∧
    (∀ l, value_of st' l = value_of (store c) l).
Proof.
  intros Hinv Hk.
  apply (inv_index _ _ Hinv) in Hk as Hx. destruct Hx as [Hx Hkx].
  destruct (touch_spec c l1 x l2 Hinv) as (st1 & st2 & Hrun1 & Hrun2 & Hinv' & Hk' & Hv').
  exists st2. split_and!; try done.
  unfold get. unfold cache_get at 1. unfold bind at 1. rewrite Hk.
  apply try_catch_normal.
  run_with Hrun1. run_with Hrun2.
  rewrite run_get_value; simp_cache.
  - by rewrite Hv'.
  - by apply Hk'; eapply inv_node_in_store.
Qed.

(** ** [put] on a key already present *)

Lemma put_existing_spec c l1 x l2 k v :
  inv c (l1 ++ x :: l2) → cache c !! k = Some x →
  ∃ st',
    put k v c = (Normal tt, set_store st' c) ∧
    inv (set_store st' c) (x :: l1 ++ l2) ∧
    same_keys (store c) st' ∧
    value_of st' x = v ∧
    (∀ l, l ≠ x → value_of st' l = value_of (store c) l).
Proof.
  intros Hinv Hk.
  apply (inv_index _ _ Hinv) in Hk as Hx. destruct Hx as [Hx Hkx].
  assert (is_nullish k = false) as Hnull.
  { rewrite <- Hkx. by apply (inv_valid _ _ Hinv). }
  assert (is_Some (store c !! x)) as Hxs by by eapply inv_node_in_store.
  set (st0 := alter (with_value v) x (store c)).
  assert (inv (set_store st0 c) (l1 ++ x :: l2)) as Hinv0.
  { apply (inv_same_keys c (l1 ++ x :: l2)); [done|done| |].
    - by apply same_keys_alter.
    - eapply linked_ext; [| |by apply (inv_linked _ _ Hinv)].
      + intros l _. apply nxt_alter_value.
      + intros l _. apply prv_alter_value. }
  destruct (touch_spec _ l1 x l2 Hinv0)
    as (st1 & st2 & Hrun1 & Hrun2 & Hinv' & Hk' & Hv').
  simp_cache.
  exists st2. split_and!; try done.
  - unfold put. rewrite Hnull. apply try_catch_normal.
    unfold cache_get at 1. unfold bind at 1. rewrite Hk.
    unfold set_value. run_with run_modify; [|done].
    fold st0. run_with Hrun1. by rewrite Hrun2.
  - eapply same_keys_trans; [|done]. by apply same_keys_alter.
  - rewrite Hv'. by apply value_of_alter_value.
  - intros l Hne. rewrite Hv'. by apply value_of_alter_ne.
Qed.

(** ** [put] on a new key: allocation, eviction, insertion *)

Lemma nxt_insert_ne (st : gmap loc LRUNode) l l' n :
  l ≠ l' → nxt (<[l:=n]> st) l' = nxt st l'.
Proof. intros. unfold nxt. by rewrite lookup_insert_ne. Qed.

Lemma prv_insert_ne (st : gmap loc LRUNode) l l' n :
  l ≠ l' → prv (<[l:=n]> st) l' = prv st l'.
Proof. intros. unfold prv. by rewrite lookup_insert_ne. Qed.

Lemma key_of_insert_eq (st : gmap loc LRUNode) l n :
  key_of (<[l:=n]> st) l = key n.
Proof. unfold key_of. by rewrite lookup_insert_eq. Qed.

Lemma key_of_insert_ne (st : gmap loc LRUNode) l l' n :
  l ≠ l' → key_of (<[l:=n]> st) l' = key_of st l'.
Proof. intros. unfold key_of. by rewrite lookup_insert_ne. Qed.

Lemma value_of_insert_eq (st : gmap loc LRUNode) l n :
  value_of (<[l:=n]> st) l = value n.
Proof. unfold value_of. by rewrite lookup_insert_eq. Qed.

Lemma value_of_insert_ne (st : gmap loc LRUNode) l l' n :
  l ≠ l' → value_of (<[l:=n]> st) l' = value_of st l'.
Proof. intros. unfold value_of. by rewrite lookup_insert_ne. Qed.

Lemma linked_insert_fresh (st : gmap loc LRUNode) x n ch :
  x ∉ ch → linked st ch → linked (<[x:=n]> st) ch.
Proof.
  intros Hx. apply linked_ext; intros l Hl.
  - apply nxt_insert_ne. by intros ->.
  - apply prv_insert_ne. by intros ->.
Qed.

Lemma inv_fresh c ls :
  inv c ls → fresh (dom (store c)) ∉ head c :: ls ++ [tail c].
Proof.
  intros Hinv Hin. apply (inv_chain_in_store _ _ _ Hinv) in Hin.
  rewrite fresh_not_in_store in Hin. by destruct Hin.
Qed.

(** [new LRUNode(key, value)] leaves the cache as it was. *)
Lemma inv_alloc c ls n :
  inv c ls →
  inv (set_store (<[fresh (dom (store c)) := n]> (store c)) c) ls.
Proof.
  intros Hinv. pose proof (inv_fresh _ _ Hinv) as Hfresh.
  apply (inv_rewire c ls); [done|done| |].
  - intros l Hl. apply key_of_insert_ne. intros <-. apply Hfresh.
    rewrite elem_of_cons, elem_of_app. auto.
  - apply linked_insert_fresh; [done|]. by apply inv_linked.
Qed.

(** The eviction branch: unlink the node before [tail] and delete its
    key from the [Map]. *)
Lemma evict_spec c ls' lru :
  inv c (ls' ++ [lru]) →
  ∃ st1,
    (let* t := this_tail in
     let* tp := get_prev t in
     let* lru := nonnull tp in
     removeNode lru;;
     let* k := get_key lru in
     cache_delete k) c
    = (Normal tt,
       set_cache (delete (key_of (store c) lru) (cache c)) (set_store st1 c)) ∧
    same_keys (store c) st1 ∧
    (∀ l, value_of st1 l = value_of (store c) l) ∧
    inv (set_cache (delete (key_of (store c) lru) (cache c)) (set_store st1 c)) ls'.
Proof.
  intros Hinv.
  pose proof (inv_nodup _ _ Hinv) as Hnd.
  pose proof (inv_linked _ _ Hinv) as Hl.
  destruct (unlink_spec c ls' lru [] Hnd Hl) as (st1 & Hrun & Hl1 & Hk1 & Hv1).
  rewrite app_nil_r in Hl1.
  assert (cache c !! key_of (store c) lru = Some lru) as Hlru.
  { apply (inv_index _ _ Hinv). split; [|done].
    rewrite elem_of_app, list_elem_of_singleton. auto. }
  assert (lru ∉ ls') as Hnotin.
  { apply NoDup_cons in Hnd as [_ Hnd]. rewrite <- app_assoc in Hnd.
    apply NoDup_app in Hnd as (_ & Hd & _). intros Hin.
    apply (Hd _ Hin). rewrite elem_of_app, list_elem_of_singleton. auto. }
  assert (prv (store c) (tail c) = Some lru) as Hprv.
  { assert (head c :: (ls' ++ [lru]) ++ [tail c]
            = (head c :: ls') ++ lru :: [tail c]) as Heq
      by (simpl; by rewrite <- app_assoc).
    rewrite Heq in Hl. apply linked_app in Hl as [_ Hl].
    by apply linked_cons in Hl as (_ & Hp & _). }
  exists st1. split_and!; try done.
  - unfold this_tail at 1. unfold bind at 1.
    run_with run_get_prev; [|by eapply prv_is_Some].
    rewrite Hprv. unfold nonnull. unfold ret at 1. unfold bind at 1.
    run_with Hrun.
    run_with run_get_key.
    + simp_cache. destruct Hk1 as [Hk1 _]. by rewrite Hk1.
    + simp_cache. apply Hk1. eapply inv_node_in_store; [done|].
      rewrite elem_of_app, list_elem_of_singleton. auto.
  - destruct Hinv as [Hcap _ _ Hidx Hsz Hb Hv]. destruct Hk1 as [Hk1 Hd1].
    split; simp_cache.
    + done.
    + rewrite <- app_assoc in Hnd.
      apply NoDup_cons in Hnd as [Hh Hnd]. apply NoDup_cons. split.
      * intros Hin. apply Hh. rewrite !elem_of_app in *.
        rewrite !list_elem_of_singleton in *. tauto.
      * apply NoDup_app in Hnd as (Hnd1 & Hd & Hnd2).
        apply NoDup_app. split_and!; [done| |].
        -- intros y Hy Hy'. apply (Hd y Hy). rewrite elem_of_app. auto.
        -- by apply NoDup_app in Hnd2 as (_ & _ & ?).
    + done.
    + intros k l. rewrite lookup_delete_Some, Hidx, Hk1.
      rewrite elem_of_app, list_elem_of_singleton.
      split.
      * intros (Hne & [Hin| ->] & Hkey); [done|]. congruence.
      * intros [Hin Hkey]. split_and!; [|auto|done].
        intros Heq. subst k.
        assert (cache c !! key_of (store c) lru = Some l) as Hl'.
        { apply Hidx. rewrite elem_of_app. rewrite Heq. auto. }
        rewrite Hlru in Hl'. congruence.
    + rewrite map_size_delete_Some by eauto. rewrite Hsz.
      rewrite length_app. simpl. lia.
    + rewrite length_app in Hb. simpl in Hb. lia.
    + intros l Hin. rewrite Hk1. apply Hv. rewrite elem_of_app. auto.
Qed.

(** The last two statements of the new-key branch:
    [this.cache.set(key, newNode); this.addToFront(newNode)]. *)
Lemma insert_front_spec c ls k x :
  inv c ls →
  cache c !! k = None →
  is_nullish k = false →
  is_Some (store c !! x) →
  x ∉ head c :: ls ++ [tail c] →
  key_of (store c) x = k →
  Z.of_nat (length ls) < capacity c →
  ∃ st',
    addToFront x (set_cache (<[k:=x]> (cache c)) c)
    = (Normal tt, set_store st' (set_cache (<[k:=x]> (cache c)) c)) ∧
    inv (set_store st' (set_cache (<[k:=x]> (cache c)) c)) (x :: ls) ∧
    same_keys (store c) st' ∧
    (∀ l, value_of st' l = value_of (store c) l).
Proof.
  intros Hinv Hk Hnull Hx Hnotin Hkey Hlen.
  pose proof (inv_nodup _ _ Hinv) as Hnd.
  pose proof (inv_linked _ _ Hinv) as Hl.
  assert (NoDup (head c :: x :: ls ++ [tail c])) as Hnd'.
  { rewrite elem_of_cons in Hnotin.
    apply NoDup_cons in Hnd as [Hh Hnd].
    apply NoDup_cons. split.
    - intros Hin. apply elem_of_cons in Hin as [Heq|Hin]; [|done].
      apply Hnotin. by left.
    - apply NoDup_cons. split; [tauto|done]. }
  destruct (addfront_spec (set_cache (<[k:=x]> (cache c)) c) ls x)
    as (st' & Hrun & Hl' & Hk' & Hv'); simp_cache; [done..|].
  exists st'. split_and!; try done.
  destruct Hinv as [Hcap _ _ Hidx Hsz Hb Hv]. destruct Hk' as [Hk' Hd'].
  assert (x ∉ ls) as Hxls.
  { intros Hin. apply Hnotin. rewrite elem_of_cons, elem_of_app. auto. }
  split; simp_cache.
  - done.
  - done.
  - done.
  - intros k0 l. rewrite lookup_insert_Some, Hidx, Hk', elem_of_cons.
    split.
    + intros [[<- <-]|(Hne & Hin & Hkey')]; [auto|auto].
    + intros [[->|Hin] Hkey'].
      * left. split; congruence.
      * right. split_and!; [|done|done].
        intros <-. assert (cache c !! k = Some l) as Hl0 by by apply Hidx.
        congruence.
  - rewrite map_size_insert_None by done. simpl. by rewrite Hsz.
  - simpl length. lia.
  - intros l. rewrite elem_of_cons, Hk'. intros [->|Hin]; [|by apply Hv].
    by rewrite Hkey.
Qed.

Lemma put_new_spec c ls k v :
  inv c ls → cache c !! k = None → is_nullish k = false →
  ∃ c' x ls',
    put k v c = (Normal tt, c') ∧
    inv c' (x :: ls') ∧
    capacity c' = capacity c ∧
    key_of (store c') x = k ∧
    value_of (store c') x = v ∧
    (∀ l, l ∈ ls' → key_of (store c') l = key_of (store c) l) ∧
    ((Z.of_nat (length ls) < capacity c ∧ ls' = ls ∧
      cache c' = <[k:=x]> (cache c))
     ∨ (Z.of_nat (length ls) = capacity c ∧
        ∃ lru, ls = ls' ++ [lru] ∧
               cache c' = <[k:=x]> (delete (key_of (store c) lru) (cache c)))).
Proof.
  intros Hinv Hk Hnull.
  set (x := fresh (dom (store c))).
  set (st0 := <[x := mkNode k v None None]> (store c)).
  pose proof (inv_alloc c ls (mkNode k v None None) Hinv) as Hinv0.
  pose proof (inv_fresh c ls Hinv) as Hfresh.
  fold x in Hinv0, Hfresh. fold st0 in Hinv0.
  assert (is_Some (st0 !! x)) as Hx0 by (unfold st0; by rewrite lookup_insert_eq).
  assert (key_of st0 x = k) as Hkx by apply key_of_insert_eq.
  assert (value_of st0 x = v) as Hvx by apply value_of_insert_eq.
  assert (∀ l, l ∈ ls → key_of st0 l = key_of (store c) l) as Hkeys0.
  { intros l Hl. apply key_of_insert_ne. intros <-. apply Hfresh.
    rewrite elem_of_cons, elem_of_app. auto. }
  pose proof (inv_bound _ _ Hinv) as Hb.
  pose proof (inv_size _ _ Hinv) as Hsz.
  destruct (Z.of_nat (length ls) >=? capacity c) eqn:Hcond.
  - (* at capacity: evict, then insert *)
    assert (Z.of_nat (length ls) = capacity c) as Hfull by lia.
    pose proof (inv_capacity _ _ Hinv) as Hcap.
    destruct ls as [|lru ls' _] using rev_ind; [simpl in Hfull; lia|].
    destruct (evict_spec _ _ _ Hinv0) as (st1 & Hrun1 & Hk1 & Hv1 & Hinv1).
    simp_cache.
    assert (lru ≠ x) as Hlx.
    { intros ->. apply Hfresh. rewrite elem_of_cons, !elem_of_app.
      rewrite list_elem_of_singleton. auto. }
    assert (key_of st0 lru = key_of (store c) lru) as Hklru.
    { apply Hkeys0. rewrite elem_of_app, list_elem_of_singleton. auto. }
    rewrite Hklru in *.
    destruct (insert_front_spec _ ls' k x Hinv1) as (st2 & Hrun2 & Hinv2 & Hk2 & Hv2);
      simp_cache.
    + apply lookup_delete_None. auto.
    + done.
    + by apply Hk1.
    + intros Hin. apply Hfresh. apply chain_elem_of in Hin.
      apply chain_elem_of. rewrite elem_of_app. tauto.
    + destruct Hk1 as [Hk1 _]. by rewrite Hk1.
    + rewrite length_app in Hfull. simpl in Hfull. lia.
    + eexists _, x, ls'. split_and!.
      * unfold put. rewrite Hnull. apply try_catch_normal.
        unfold cache_get at 1. unfold bind at 1. rewrite Hk.
        unfold new_LRUNode at 1. unfold bind at 1.
        unfold cache_size at 1. unfold bind at 1.
        unfold this_capacity at 1. unfold bind at 1. simp_cache.
        rewrite Hsz, Hcond.
        run_with Hrun1.
        unfold cache_set at 1. unfold bind at 1. simp_cache.
        exact Hrun2.
      * exact Hinv2.
      * done.
      * simp_cache. destruct Hk2 as [Hk2 _], Hk1 as [Hk1 _].
        by rewrite Hk2, Hk1.
      * simp_cache. by rewrite Hv2, Hv1.
      * simp_cache. intros l Hl. destruct Hk2 as [Hk2 _], Hk1 as [Hk1 _].
        rewrite Hk2, Hk1. apply Hkeys0. rewrite elem_of_app. auto.
      * right. split; [done|]. by exists lru.
  - (* room left: insert *)
    assert (Z.of_nat (length ls) < capacity c) as Hroom by lia.
    destruct (insert_front_spec _ ls k x Hinv0) as (st2 & Hrun2 & Hinv2 & Hk2 & Hv2);
      simp_cache; try done.
    eexists _, x, ls. split_and!.
    + unfold put. rewrite Hnull. apply try_catch_normal.
      unfold cache_get at 1. unfold bind at 1. rewrite Hk.
      unfold new_LRUNode at 1. unfold bind at 1.
      unfold cache_size at 1. unfold bind at 1.
      unfold this_capacity at 1. unfold bind at 1. simp_cache.
      rewrite Hsz, Hcond.
      unfold ret at 1. unfold bind at 1.
      unfold cache_set at 1. unfold bind at 1. simp_cache.
      exact Hrun2.
    + exact Hinv2.
    + done.
    + simp_cache. destruct Hk2 as [Hk2 _]. by rewrite Hk2.
    + simp_cache. by rewrite Hv2.
    + simp_cache. intros l Hl. destruct Hk2 as [Hk2 _].
      rewrite Hk2. by apply Hkeys0.
    + left. done.
Qed.

(** ** [clear] *)

Lemma clear_spec c ls :
  inv c ls →
  ∃ st',
    clear c = (Normal tt, set_store st' (set_cache ∅ c)) ∧
    inv (set_store st' (set_cache ∅ c)) [] ∧
    same_keys (store c) st'.
Proof.
  intros Hinv.
  assert (is_Some (store c !! head c)) as Hh.
  { eapply inv_chain_in_store; [done|]. apply chain_elem_of. auto. }
  assert (is_Some (store c !! tail c)) as Ht.
  { eapply inv_chain_in_store; [done|]. apply chain_elem_of. auto. }
  assert (head c ≠ tail c) as Hne.
  { pose proof (inv_nodup _ _ Hinv) as Hnd.
    apply NoDup_cons in Hnd as [Hnd _]. intros Heq. apply Hnd.
    rewrite elem_of_app, list_elem_of_singleton. auto. }
  exists (alter (with_prev (Some (head c))) (tail c)
            (alter (with_next (Some (tail c))) (head c) (store c))).
  split_and!.
  - unfold clear. apply try_catch_normal.
    unfold cache_clear at 1. unfold bind at 1.
    unfold this_head at 1. unfold bind at 1.
    unfold this_tail at 1. unfold bind at 1.
    unfold set_next. run_with run_modify; [|done].
    unfold this_tail at 1. unfold bind at 1.
    unfold this_head at 1. unfold bind at 1.
    unfold set_prev. rewrite run_modify; [done|].
    simp_cache. by apply is_Some_alter.
  - split; simp_cache.
    + by apply (inv_capacity _ _ Hinv).
    + simpl. apply NoDup_cons. split; [|apply NoDup_singleton].
      by rewrite list_elem_of_singleton.
    + simpl. split_and!; [| |done].
      * by rewrite nxt_alter_prev, nxt_alter_next_eq.
      * rewrite prv_alter_prev_eq; [done|]. by apply is_Some_alter.
    + intros k l. rewrite lookup_empty, elem_of_nil. split; [done|tauto].
    + by rewrite map_size_empty.
    + pose proof (inv_capacity _ _ Hinv). simpl. lia.
    + intros l Hl. by apply elem_of_nil in Hl.
  - eapply same_keys_trans; by apply same_keys_alter.
Qed.

(** ** The constructor *)

Lemma Qred_inject_Z z : Qred (inject_Z z) = inject_Z z.
Proof. apply Qcanon.Qred_identity. simpl. apply Z.gcd_1_r. Qed.

Lemma positive_integer_check n :
  negb (Number_isInteger n) || number_le_zero n = false ↔ positive_integer n.
Proof.
  split.
  - intros Hc. apply orb_false_iff in Hc as [Hi Hp].
    apply negb_false_iff in Hi.
    destruct n as [|neg|q]; cbn [Number_isInteger number_le_zero] in *;
      try done.
    apply Pos.eqb_eq in Hi.
    assert (¬ (q <= 0)%Q) as Hq.
    { intros Hle. apply Qle_bool_iff in Hle. congruence. }
    pose proof (Qred_correct q) as Hred.
    destruct (Qred q) as [a b] eqn:Hqr. simpl in Hi. subst b.
    exists a. split.
    + apply Qnot_le_lt in Hq. rewrite <- Hred in Hq.
      unfold Qlt in Hq. simpl in Hq. lia.
    + exists q. split; [done|]. by rewrite <- Hred.
  - intros (z & Hz & q & -> & Hq). cbn [Number_isInteger number_le_zero].
    rewrite (Qred_complete _ _ Hq), Qred_inject_Z. simpl.
    destruct (Qle_bool q 0) eqn:Hle; [|done].
    apply Qle_bool_iff in Hle. rewrite Hq in Hle.
    unfold Qle in Hle. simpl in Hle. lia.
Qed.

Lemma constructor_inv n c : constructor n = Normal c → inv c [].
Proof.
  unfold constructor.
  destruct (negb (Number_isInteger n) || number_le_zero n) eqn:Hc; [done|].
  intros [= <-].
  apply positive_integer_check in Hc as (z & Hz & q & -> & Hq).
  split; simp_cache.
  - simpl. by rewrite (Qred_complete _ _ Hq), Qred_inject_Z.
  - simpl. apply NoDup_cons. split; [|apply NoDup_singleton].
    by rewrite list_elem_of_singleton.
  - simpl. unfold nxt, prv.
    rewrite lookup_insert_ne, lookup_insert_eq, lookup_insert_eq by done.
    done.
  - intros k l. rewrite lookup_empty, elem_of_nil. split; [done|tauto].
  - by rewrite map_size_empty.
  - simpl. rewrite (Qred_complete _ _ Hq), Qred_inject_Z. simpl. lia.
  - intros l Hl. by apply elem_of_nil in Hl.
Qed.

(** ** Every reachable state satisfies the invariant *)

Lemma get_miss c k :
  cache c !! k = None → get k c = (Throw (miss_exception k), c).
Proof.
  intros Hk. unfold get, bind, cache_get. rewrite Hk.
  unfold new_KeyNotFoundError, miss_exception, raising, bind.
  by destruct (description_error k).
Qed.

Lemma get_miss_described c k :
  cache c !! k = None → description_error k = None →
  get k c = (Throw (KeyNotFoundError k), c).
Proof.
  intros Hk Hd. rewrite get_miss by done. unfold miss_exception. by rewrite Hd.
Qed.

Lemma getSafe_miss c k :
  cache c !! k = None →
  getSafe k c
  = (if instanceof (miss_exception k) CKeyNotFoundError then Normal Undefined
     else Throw (miss_exception k), c).
Proof.
  intros Hk. unfold getSafe, try_catch. rewrite get_miss by done.
  by destruct (instanceof (miss_exception k) CKeyNotFoundError).
Qed.

Lemma getSafe_miss_described c k :
  cache c !! k = None → description_error k = None →
  getSafe k c = (Normal Undefined, c).
Proof.
  intros Hk Hd. rewrite getSafe_miss by done. unfold miss_exception.
  by rewrite Hd.
Qed.

Lemma getSafe_hit c k :
  is_Some (cache c !! k) → String_error k = None → getSafe k c = get k c.
Proof.
  intros [x Hk] Hs. unfold getSafe. unfold try_catch at 1.
  destruct (get k c) as [[v|e| |] c'] eqn:Hg; try done.
  unfold get in Hg. unfold bind at 1 in Hg. unfold cache_get at 1 in Hg.
  rewrite Hk in Hg. unfold try_catch in Hg.
  destruct ((removeNode x;; addToFront x;; get_value x) c) as [[v'|e'| |] c''];
    try done.
  unfold String_, raising, bind, throw in Hg. rewrite Hs in Hg. simpl in Hg.
  by injection Hg as <- <-.
Qed.

Lemma getSafe_normal c k v c' :
  get k c = (Normal v, c') → getSafe k c = (Normal v, c').
Proof. intros Hg. unfold getSafe, try_catch. by rewrite Hg. Qed.

Lemma put_nullish c k v :
  is_nullish k = true →
  put k v c = (Throw (LRUCacheError "Key cannot be null or undefined"), c).
Proof. intros Hk. unfold put. by rewrite Hk. Qed.

Lemma exec_wf o c : wf c → wf (exec o c).
Proof.
  intros [ls Hinv]. destruct o as [k v|k|k|k| | |fuel]; simpl.
  - destruct (is_nullish k) eqn:Hnull.
    { rewrite put_nullish by done. by exists ls. }
    destruct (cache c !! k) as [x|] eqn:Hk.
    + destruct (inv_lookup_split c ls k x Hinv Hk) as (l1 & l2 & ->).
      destruct (put_existing_spec c l1 x l2 k v Hinv Hk)
        as (st' & -> & Hinv' & _). by eexists.
    + destruct (put_new_spec c ls k v Hinv Hk Hnull)
        as (c' & x & ls' & -> & Hinv' & _). by eexists.
  - destruct (cache c !! k) as [x|] eqn:Hk.
    + destruct (inv_lookup_split c ls k x Hinv Hk) as (l1 & l2 & ->).
      destruct (get_hit_spec c l1 x l2 k Hinv Hk)
        as (st' & _ & -> & Hinv' & _). by eexists.
    + rewrite get_miss by done. by exists ls.
  - destruct (cache c !! k) as [x|] eqn:Hk.
    + destruct (inv_lookup_split c ls k x Hinv Hk) as (l1 & l2 & ->).
      destruct (get_hit_spec c l1 x l2 k Hinv Hk)
        as (st' & _ & Hget & Hinv' & _).
      rewrite (getSafe_normal _ _ _ _ Hget). by eexists.
    + rewrite getSafe_miss by done. by exists ls.
  - by exists ls.
  - by exists ls.
  - destruct (clear_spec c ls Hinv) as (st' & -> & Hinv' & _). by eexists.
  - rewrite keys_state. by exists ls.
Qed.

Lemma reachable_wf c : reachable c → wf c.
Proof.
  induction 1 as [n c Hn|o c _ IH].
  - exists []. by eapply constructor_inv.
  - by apply exec_wf.
Qed.

(** ** What the public queries see of the invariant *)

Lemma has_true c k : has k c = true ↔ is_Some (cache c !! k).
Proof. apply bool_decide_eq_true. Qed.

Lemma has_false c k : has k c = false ↔ cache c !! k = None.
Proof.
  unfold has. rewrite bool_decide_eq_false. symmetry. apply eq_None_not_Some.
Qed.

Lemma inv_has c ls k :
  inv c ls → has k c = true ↔ k ∈ key_of (store c) <$> ls.
Proof.
  intros Hinv. rewrite has_true, list_elem_of_fmap. split.
  - intros [l Hl]. apply (inv_index _ _ Hinv) in Hl as [Hin Hk]. eauto.
  - intros (l & -> & Hin). exists l. by apply (inv_index _ _ Hinv).
Qed.

Lemma inv_order_nodup c ls : inv c ls → NoDup ls.
Proof.
  intros Hinv. pose proof (inv_nodup _ _ Hinv) as Hnd.
  apply NoDup_cons in Hnd as [_ Hnd]. by apply NoDup_app in Hnd as [? _].
Qed.

Lemma inv_keys_nodup c ls : inv c ls → NoDup (key_of (store c) <$> ls).
Proof.
  intros Hinv. apply NoDup_fmap_2_strong; [|by eapply inv_order_nodup].
  intros l1 l2 H1 H2 Heq.
  assert (cache c !! key_of (store c) l1 = Some l1) as E1
    by by apply (inv_index _ _ Hinv).
  assert (cache c !! key_of (store c) l1 = Some l2) as E2
    by by apply (inv_index _ _ Hinv).
  congruence.
Qed.

Lemma fmap_key_of_ext st st' (ls : list loc) :
  (∀ l, l ∈ ls → key_of st' l = key_of st l) →
  key_of st' <$> ls = key_of st <$> ls.
Proof.
  intros Hk. apply list_fmap_ext. intros i l Hl. apply Hk.
  by eapply list_elem_of_lookup_2.
Qed.

(** ** The claims *)

(** The invariant as the object holds it.  In every state reachable from
    the constructor by public calls, [size()] is at most the [capacity]
    field, and the [Map] and the recency
    order are in bijection: there is a duplicate-free list [ls] of nodes
    chained between the sentinels such that the [Map] sends a key to a
    node exactly when the node is in [ls] and carries that key; distinct
    nodes carry distinct keys; [ls] has [size()] elements; and [keys()]
    returns their keys in order, so it has length [size()], no duplicates,
    and holds exactly the keys [has] accepts. *)
Theorem reachable_invariant (c : LRUCache) :
  reachable c →
  Z.of_nat (size_ c) ≤ capacity c ∧
  ∃ (ls : list loc) (ks : list (js K)),
    NoDup ls ∧
    linked (store c) (head c :: ls ++ [tail c]) ∧
    (∀ k l, cache c !! k = Some l ↔ l ∈ ls ∧ key_of (store c) l = k) ∧
    length ls = size_ c ∧
    ks = key_of (store c) <$> ls ∧
    (∀ fuel, (size_ c < fuel)%nat → keys fuel c = (Normal ks, c)) ∧
    length ks = size_ c ∧
    NoDup ks ∧
    (∀ k, has k c = true ↔ k ∈ ks).
Proof.
  intros Hr. destruct (reachable_wf c Hr) as [ls Hinv].
  pose proof (inv_size _ _ Hinv) as Hsz.
  split.
  - unfold size_. rewrite Hsz. by apply inv_bound.
  - exists ls, (key_of (store c) <$> ls). split_and!.
    + by eapply inv_order_nodup.
    + by apply inv_linked.
    + by apply inv_index.
    + done.
    + done.
    + intros fuel Hfuel. apply run_keys; [done|]. unfold size_ in Hfuel. lia.
    + by rewrite length_fmap.
    + by apply inv_keys_nodup.
    + intros k. by apply inv_has.
Qed.

(** C1 (eviction law).  When [size() == capacity] and [k] is a key not
    present, [put(k, v)] returns normally and removes exactly the key
    that was last in [keys()]: [keys()] was [ks ++ [last]] and becomes
    [k :: ks]; [has(last)] turns false, [has(k)] true, every other key
    keeps its presence, and [size()] still equals the capacity. *)
Theorem put_at_capacity_evicts_last (c : LRUCache) (k : K) (v : js V) :
  reachable c →
  Z.of_nat (size_ c) = capacity c →
  has (Val k) c = false →
  ∃ ks last c',
    (∀ fuel, (size_ c < fuel)%nat → keys fuel c = (Normal (ks ++ [last]), c)) ∧
    has last c = true ∧
    put (Val k) v c = (Normal tt, c') ∧
    has last c' = false ∧
    has (Val k) c' = true ∧
    (∀ k', has k' c' = true ↔ k' = Val k ∨ (k' ≠ last ∧ has k' c = true)) ∧
    size_ c' = size_ c ∧
    Z.of_nat (size_ c') = capacity c' ∧
    (∀ fuel, (size_ c' < fuel)%nat → keys fuel c' = (Normal (Val k :: ks), c')).
Proof.
  intros Hr Hfull Hk. destruct (reachable_wf c Hr) as [ls Hinv].
  apply has_false in Hk.
  pose proof (inv_size _ _ Hinv) as Hsz. unfold size_ in *.
  destruct (put_new_spec c ls (Val k) v Hinv Hk eq_refl)
    as (c' & x & ls' & Hput & Hinv' & Hcap & Hkx & Hvx & Hkeys & Hcase).
  destruct Hcase as [(Hlt & _)|(_ & lru & -> & Hcache)]; [lia|].
  pose proof (inv_size _ _ Hinv') as Hsz'.
  assert (cache c !! key_of (store c) lru = Some lru) as Hlru.
  { apply (inv_index _ _ Hinv). rewrite elem_of_app, list_elem_of_singleton. auto. }
  assert (key_of (store c) lru ≠ Val k) as Hne by congruence.
  exists (key_of (store c) <$> ls'), (key_of (store c) lru), c'.
  assert (∀ k', has k' c' = true
                ↔ k' = Val k ∨ (k' ≠ key_of (store c) lru ∧ has k' c = true)) as Hhas.
  { intros k'. rewrite !has_true, Hcache.
    rewrite lookup_insert_is_Some, lookup_delete_is_Some. split.
    - intros [<-|(_ & Hn & Hs)]; [by left|right]. split; [congruence|done].
    - intros [->|[Hn Hs]]; [by left|].
      destruct (decide (Val k = k')) as [|Hd]; [by left|right].
      split_and!; [done|congruence|done]. }
  split_and!.
  - intros fuel Hfuel. rewrite (run_keys c _ fuel Hinv) by lia.
    by rewrite fmap_app.
  - apply has_true. eauto.
  - done.
  - apply has_false. rewrite Hcache, lookup_insert_ne by done.
    apply lookup_delete_eq.
  - apply Hhas. auto.
  - done.
  - rewrite Hsz', Hsz. rewrite length_app. simpl. lia.
  - rewrite Hsz', Hcap, <- Hfull, Hsz. rewrite length_app. simpl. lia.
  - intros fuel Hfuel. rewrite (run_keys c' _ fuel Hinv') by lia.
    rewrite fmap_cons, Hkx. by rewrite (fmap_key_of_ext _ _ _ Hkeys).
Qed.

(** C4 (recency law).  For a key [k] present in the cache, [get(k)]
    returns normally and afterwards [k] is the first element of
    [keys()], the other keys following in their previous order. *)
Theorem get_moves_key_to_front (c : LRUCache) (k : js K) :
  reachable c →
  has k c = true →
  ∃ v c' ks1 ks2,
    get k c = (Normal v, c') ∧
    (∀ fuel, (size_ c < fuel)%nat → keys fuel c = (Normal (ks1 ++ k :: ks2), c)) ∧
    (∀ fuel, (size_ c' < fuel)%nat →
             keys fuel c' = (Normal (k :: ks1 ++ ks2), c')).
Proof.
  intros Hr Hk. destruct (reachable_wf c Hr) as [ls Hinv].
  apply has_true in Hk as [x Hk].
  destruct (inv_lookup_split c ls k x Hinv Hk) as (l1 & l2 & ->).
  destruct (get_hit_spec c l1 x l2 k Hinv Hk)
    as (st' & Hkx & Hget & Hinv' & [Hkeys _] & _).
  pose proof (inv_size _ _ Hinv) as Hsz.
  pose proof (inv_size _ _ Hinv') as Hsz'. unfold size_.
  eexists _, _, (key_of (store c) <$> l1), (key_of (store c) <$> l2).
  split_and!.
  - exact Hget.
  - intros fuel Hfuel. rewrite (run_keys c _ fuel Hinv) by lia.
    by rewrite fmap_app, fmap_cons, Hkx.
  - intros fuel Hfuel. rewrite (run_keys _ _ fuel Hinv') by lia.
    simp_cache. rewrite fmap_cons, fmap_app, Hkeys, Hkx.
    by rewrite (fmap_key_of_ext (store c) st' l1),
               (fmap_key_of_ext (store c) st' l2) by auto.
Qed.

(** A valid key put into a well-formed cache is there afterwards, with
    the value just put. *)
Lemma put_then_get_wf c k v :
  wf c → is_nullish k = false →
  ∃ c' c'',
    put k v c = (Normal tt, c') ∧ wf c' ∧
    has k c' = true ∧
    get k c' = (Normal v, c'').
Proof.
  intros [ls Hinv] Hnull. destruct (cache c !! k) as [x|] eqn:Hk.
  - destruct (inv_lookup_split c ls k x Hinv Hk) as (l1 & l2 & ->).
    destruct (put_existing_spec c l1 x l2 k v Hinv Hk)
      as (st' & Hput & Hinv' & _ & Hv & _).
    assert (cache (set_store st' c) !! k = Some x) as Hk' by done.
    destruct (get_hit_spec _ [] x (l1 ++ l2) k Hinv' Hk')
      as (st'' & _ & Hget & _).
    simp_cache. rewrite Hv in Hget.
    eexists _, _. split_and!; [done|by eexists| |done].
    apply has_true. eauto.
  - destruct (put_new_spec c ls k v Hinv Hk Hnull)
      as (c' & x & ls' & Hput & Hinv' & _ & _ & Hv & _ & Hcase).
    assert (cache c' !! k = Some x) as Hk'.
    { destruct Hcase as [(_ & _ & ->)|(_ & lru & _ & ->)];
        apply lookup_insert_eq. }
    destruct (get_hit_spec _ [] x ls' k Hinv' Hk') as (st'' & _ & Hget & _).
    rewrite Hv in Hget.
    eexists _, _. split_and!; [done|by eexists| |done].
    apply has_true. eauto.
Qed.

(** C3, as amended.  In every cache state, [put] with a [null] or
    [undefined] key throws, before touching anything, an error of the
    base class [LRUCacheError] (the class the internal-consistency checks
    throw too; there is no dedicated invalid-key class), and the cache
    state is unchanged, so the key is not stored. *)
Theorem put_nullish_key_rejected (c : LRUCache) (v : js V) :
  let e := LRUCacheError (K:=K) "Key cannot be null or undefined" in
  put Null v c = (Throw e, c) ∧
  put Undefined v c = (Throw e, c) ∧
  class_of e = CLRUCacheError ∧
  class_of e = class_of (LRUCacheError (K:=K) "Invalid node state: missing links") ∧
  name e = "LRUCacheError"%string ∧
  instanceof e CKeyNotFoundError = false ∧
  instanceof e CInvalidCapacityError = false.
Proof.
  intros e. split_and!.
  - unfold put. simpl is_nullish. reflexivity.
  - unfold put. simpl is_nullish. reflexivity.
  - reflexivity.
  - reflexivity.
  - reflexivity.
  - reflexivity.
  - reflexivity.
Qed.

(** C5 (update-as-use).  For a key [k] already present, [put(k, v2)]
    returns normally, [keys()] afterwards is what it would be after a
    successful [get(k)] on the same state ([k] first, the rest in their
    previous order), [size()] and the set of present keys are unchanged
    (nothing is evicted, whatever the size), and [get(k)] then returns
    [v2]. *)
Theorem put_existing_updates_and_refreshes (c : LRUCache) (k : js K) (v2 : js V) :
  reachable c →
  has k c = true →
  ∃ c' v1 cg ks c'',
    put k v2 c = (Normal tt, c') ∧
    get k c = (Normal v1, cg) ∧
    (∀ fuel, (size_ c' < fuel)%nat → keys fuel c' = (Normal (k :: ks), c')) ∧
    (∀ fuel, (size_ cg < fuel)%nat → keys fuel cg = (Normal (k :: ks), cg)) ∧
    size_ c' = size_ c ∧
    (∀ k', has k' c' = has k' c) ∧
    get k c' = (Normal v2, c'').
Proof.
  intros Hr Hk. destruct (reachable_wf c Hr) as [ls Hinv].
  apply has_true in Hk as [x Hk].
  destruct (inv_lookup_split c ls k x Hinv Hk) as (l1 & l2 & ->).
  destruct (put_existing_spec c l1 x l2 k v2 Hinv Hk)
    as (stp & Hput & Hinvp & [Hkp _] & Hvp & _).
  destruct (get_hit_spec c l1 x l2 k Hinv Hk)
    as (stg & Hkx & Hget & Hinvg & [Hkg _] & _).
  assert (cache (set_store stp c) !! k = Some x) as Hk' by done.
  destruct (get_hit_spec _ [] x (l1 ++ l2) k Hinvp Hk') as (st'' & _ & Hget' & _).
  simp_cache. rewrite Hvp in Hget'.
  pose proof (inv_size _ _ Hinvp) as Hszp.
  pose proof (inv_size _ _ Hinvg) as Hszg.
  eexists _, _, _, (key_of (store c) <$> l1 ++ l2), _.
  split_and!; [exact Hput|exact Hget| | |done|done|exact Hget'].
  - intros fuel Hfuel. unfold size_ in Hfuel.
    rewrite (run_keys _ _ fuel Hinvp) by lia. simp_cache.
    rewrite fmap_cons, Hkp, Hkx.
    by rewrite (fmap_key_of_ext (store c) stp (l1 ++ l2)) by auto.
  - intros fuel Hfuel. unfold size_ in Hfuel.
    rewrite (run_keys _ _ fuel Hinvg) by lia. simp_cache.
    rewrite fmap_cons, Hkg, Hkx.
    by rewrite (fmap_key_of_ext (store c) stg (l1 ++ l2)) by auto.
Qed.

(** C6 (round trip).  For every valid (non-null, non-undefined) key [k]
    and every value [v], [put(k, v)] returns normally and the [get(k)]
    that follows it returns [v]. *)
Theorem put_get_round_trip (c : LRUCache) (k : K) (v : js V) :
  reachable c →
  ∃ c' c'',
    put (Val k) v c = (Normal tt, c') ∧
    get (Val k) c' = (Normal v, c'').
Proof.
  intros Hr.
  destruct (put_then_get_wf c (Val k) v (reachable_wf c Hr) eq_refl)
    as (c' & c'' & Hput & _ & _ & Hget).
  by exists c', c''.
Qed.

(** Miss and hit, for a key that converts to text.  In every cache
    state: on an absent key whose [KeyNotFoundError] message can be built,
    [get] throws [KeyNotFoundError] and leaves the cache object unchanged
    (no reorder), while [getSafe] returns [undefined] normally and leaves
    it unchanged too; on a present key for which [String(key)] returns,
    [getSafe] does exactly what [get] does: same completion, same
    resulting state. *)
Theorem get_and_getSafe_on_miss_and_hit (c : LRUCache) (k : js K) :
  (has k c = false → description_error k = None →
   get k c = (Throw (KeyNotFoundError k), c) ∧
   class_of (KeyNotFoundError k) = CKeyNotFoundError ∧
   getSafe k c = (Normal Undefined, c)) ∧
  (has k c = true → String_error k = None → getSafe k c = get k c).
Proof.
  split.
  - intros Hk%has_false Hd.
    split_and!; [by apply get_miss_described|done|by apply getSafe_miss_described].
  - intros Hk%has_true Hs. by apply getSafe_hit.
Qed.

(** A miss on a key whose message cannot be built.  In every cache
    state, when evaluating the message of [new KeyNotFoundError(key)]
    throws [e], no [KeyNotFoundError] comes to exist: [get] on the absent
    key ends with [e] itself, and [getSafe], which only intercepts
    [KeyNotFoundError], rethrows it instead of returning [undefined].
    The cache object is unchanged. *)
Theorem miss_on_key_without_text (c : LRUCache) (k : js K) (e : exn K) :
  has k c = false →
  description_error k = Some e →
  get k c = (Throw e, c) ∧
  (instanceof e CKeyNotFoundError = false → getSafe k c = (Throw e, c)).
Proof.
  intros Hk%has_false Hd. split.
  - rewrite get_miss by done. unfold miss_exception. by rewrite Hd.
  - intros He. rewrite getSafe_miss by done. unfold miss_exception.
    by rewrite Hd, He.
Qed.

(** C8 (construction).  The constructor throws [InvalidCapacityError]
    exactly when its argument is not a positive integer, in particular
    for every integer [z <= 0], every non-integral finite number, [NaN]
    and the infinities; for a positive integer it returns an empty cache:
    [size()] is 0, no key is present and [keys()] is empty. *)
Theorem constructor_validates_capacity (n : number) :
  (constructor n = Throw (InvalidCapacityError n) ↔ ¬ positive_integer n) ∧
  (positive_integer n →
   ∃ c, constructor n = Normal c ∧
        size_ c = 0%nat ∧
        (∀ k, has k c = false) ∧
        (∀ fuel, (0 < fuel)%nat → keys fuel c = (Normal [], c))) ∧
  (∀ z : Z, z ≤ 0 → ¬ positive_integer (of_Z z)) ∧
  (∀ q : Q, (∀ z : Z, ¬ Qeq q (inject_Z z)) → ¬ positive_integer (Finite q)) ∧
  ¬ positive_integer NaN ∧
  (∀ b, ¬ positive_integer (Infinity b)).
Proof.
  split_and!.
  - unfold constructor. rewrite <- positive_integer_check.
    destruct (negb (Number_isInteger n) || number_le_zero n); split; done.
  - intros Hn. pose proof Hn as Hc. apply positive_integer_check in Hc.
    destruct (constructor n) as [c| | |] eqn:Hcons;
      try (unfold constructor in Hcons; rewrite Hc in Hcons; done).
    pose proof (constructor_inv n c Hcons) as Hinv.
    pose proof (inv_size _ _ Hinv) as Hsz.
    exists c. split_and!; [done|done| |].
    + intros k. apply has_false.
      destruct (cache c !! k) as [l|] eqn:Hk; [|done].
      apply (inv_index _ _ Hinv) in Hk as [Hin _]. by apply elem_of_nil in Hin.
    + intros fuel Hfuel. by rewrite (run_keys c [] fuel Hinv).
  - intros z Hz (z' & Hz' & q & [= <-] & Hq).
    unfold Qeq in Hq. simpl in Hq. lia.
  - intros q Hq (z & _ & q' & [= <-] & Hq'). by apply (Hq z).
  - by intros (z & _ & q & [=] & _).
  - by intros b (z & _ & q & [=] & _).
Qed.

(** C9 (safety).  In every reachable state no public call runs into a
    defensive error branch: [put] with a valid key, [get] and [getSafe]
    on a present key, [clear] and [keys] (given fuel beyond [size()])
    all return normally.  The only exceptions a public call can end with
    come from rejecting its input: [put] of a [null] or [undefined] key
    throws its [LRUCacheError]; [get] of an absent key throws
    [KeyNotFoundError]; and when the message of that error cannot be
    built for the absent key, [get] and [getSafe] end with what the
    conversion of the key threw.  The errors of [removeNode],
    [addToFront] and [keys], and the wrapped errors of the [catch]
    blocks, never occur. *)
Theorem reachable_operations_never_fail (c : LRUCache) :
  reachable c →
  (∀ k v, is_nullish k = false → ∃ c', put k v c = (Normal tt, c')) ∧
  (∀ k, has k c = true →
        ∃ v c', get k c = (Normal v, c') ∧ getSafe k c = (Normal v, c')) ∧
  (∃ c', clear c = (Normal tt, c')) ∧
  (∃ ks, ∀ fuel, (size_ c < fuel)%nat → keys fuel c = (Normal ks, c)) ∧
  (∀ o e, thrown o c = Some e →
          (∃ k v, o = OpPut k v ∧ is_nullish k = true ∧
                  e = LRUCacheError "Key cannot be null or undefined")
          ∨ (∃ k, o = OpGet k ∧ has k c = false ∧
                  description_error k = None ∧ e = KeyNotFoundError k)
          ∨ (∃ k, (o = OpGet k ∨ o = OpGetSafe k) ∧ has k c = false ∧
                  description_error k = Some e)).
Proof.
  intros Hr. destruct (reachable_wf c Hr) as [ls Hinv].
  assert (∀ k v, is_nullish k = false → ∃ c', put k v c = (Normal tt, c'))
    as Hput.
  { intros k v Hnull.
    destruct (put_then_get_wf c k v (reachable_wf c Hr) Hnull)
      as (c' & _ & Hput & _). by exists c'. }
  assert (∀ k, has k c = true →
               ∃ v c', get k c = (Normal v, c') ∧ getSafe k c = (Normal v, c'))
    as Hget.
  { intros k Hk. apply has_true in Hk as [x Hk].
    destruct (inv_lookup_split c ls k x Hinv Hk) as (l1 & l2 & ->).
    destruct (get_hit_spec c l1 x l2 k Hinv Hk) as (st' & _ & Hget & _).
    eexists _, _. split; [done|]. by apply getSafe_normal. }
  assert (∃ c', clear c = (Normal tt, c')) as Hclear.
  { destruct (clear_spec c ls Hinv) as (st' & Hclear & _). by eexists. }
  pose proof (inv_size _ _ Hinv) as Hsz.
  split_and!; try done.
  - exists (key_of (store c) <$> ls). intros fuel Hfuel.
    apply run_keys; [done|]. unfold size_ in Hfuel. lia.
  - intros o e Hthrown. unfold thrown, thrown_by in Hthrown.
    destruct o as [k v|k|k|k| | |fuel].
    + destruct (is_nullish k) eqn:Hnull.
      * left. exists k, v. rewrite put_nullish in Hthrown by done.
        simpl in Hthrown. by injection Hthrown as <-.
      * destruct (Hput k v Hnull) as [c' Hc']. by rewrite Hc' in Hthrown.
    + destruct (has k c) eqn:Hk.
      * destruct (Hget k Hk) as (v & c' & Hc' & _). by rewrite Hc' in Hthrown.
      * right. rewrite get_miss in Hthrown by by apply has_false.
        simpl in Hthrown. injection Hthrown as <-. unfold miss_exception.
        destruct (description_error k) as [e'|] eqn:Hd.
        -- right. exists k. split_and!; [by left|done|done].
        -- left. by exists k.
    + destruct (has k c) eqn:Hk.
      * destruct (Hget k Hk) as (v & c' & _ & Hc'). by rewrite Hc' in Hthrown.
      * rewrite getSafe_miss in Hthrown by by apply has_false.
        unfold miss_exception in Hthrown.
        destruct (description_error k) as [e'|] eqn:Hd; [|done].
        destruct (instanceof e' CKeyNotFoundError); [done|].
        simpl in Hthrown. injection Hthrown as <-.
        right. right. exists k. split_and!; [by right|done|done].
    + done.
    + done.
    + destruct Hclear as [c' Hc']. by rewrite Hc' in Hthrown.
    + destruct (decide (length ls < fuel)%nat).
      * by rewrite (run_keys c ls fuel) in Hthrown.
      * rewrite (run_keys_short c ls fuel) in Hthrown by (done || lia).
        done.
Qed.

(** C10, amended (values are not validated).  For a valid key [k],
    [put(k, undefined)] is accepted; afterwards [has(k)] is true, [get(k)]
    returns [undefined] normally, and [getSafe(k)] returns [undefined],
    which is also what [getSafe] returns for an absent key of any cache
    (one whose [KeyNotFoundError] message can be built).  So [getSafe]
    cannot tell the stored [undefined] from a miss, while both [has] and
    [get] can: [has] answers [true] against [false], and [get] returns
    normally where on the miss it throws [KeyNotFoundError]. *)
Theorem undefined_value_is_stored (c : LRUCache) (k : K) :
  reachable c →
  ∃ c' c'',
    put (Val k) Undefined c = (Normal tt, c') ∧
    has (Val k) c' = true ∧
    get (Val k) c' = (Normal Undefined, c'') ∧
    getSafe (Val k) c' = (Normal Undefined, c'') ∧
    (∀ c0 k0, has k0 c0 = false → description_error k0 = None →
              fst (getSafe k0 c0) = fst (getSafe (Val k) c') ∧
              has k0 c0 ≠ has (Val k) c' ∧
              fst (get k0 c0) = Throw (KeyNotFoundError k0) ∧
              fst (get k0 c0) ≠ fst (get (Val k) c')).
Proof.
  intros Hr.
  destruct (put_then_get_wf c (Val k) Undefined (reachable_wf c Hr) eq_refl)
    as (c' & c'' & Hput & _ & Hhas & Hget).
  pose proof (getSafe_normal _ _ _ _ Hget) as Hsafe.
  exists c', c''. split_and!; try done.
  intros c0 k0 Hk0 Hd. split_and!.
  - rewrite getSafe_miss_described by (done || by apply has_false).
    by rewrite Hsafe.
  - congruence.
  - by rewrite get_miss_described by (done || by apply has_false).
  - rewrite get_miss_described by (done || by apply has_false).
    by rewrite Hget.
Qed.

(** ** Beyond the claims: entries, values and an abstract view *)

(** The key and value a node carries. *)
Definition entry_of (st : gmap loc LRUNode) (l : loc) : js K * js V :=
  (key_of st l, value_of st l).

(** [represents c es]: the cache [c] holds the entries [es], most
    recently used first. *)
Definition represents (c : LRUCache) (es : list (js K * js V)) : Prop :=
  ∃ ls, inv c ls ∧ es = entry_of (store c) <$> ls.

(** The same operations on a plain list of entries. *)
Definition remove_key (k : js K) (es : list (js K * js V)) : list (js K * js V) :=
  filter (λ e, e.1 ≠ k) es.

Fixpoint lookup_key (k : js K) (es : list (js K * js V)) : option (js V) :=
  match es with
  | [] => None
  | e :: es' => if decide (e.1 = k) then Some e.2 else lookup_key k es'
  end.

Definition model_get (k : js K) (es : list (js K * js V))
  : option (js V * list (js K * js V)) :=
  match lookup_key k es with
  | Some v => Some (v, (k, v) :: remove_key k es)
  | None => None
  end.

Definition model_put (cap : Z) (k : js K) (v : js V) (es : list (js K * js V))
  : list (js K * js V) :=
  match lookup_key k es with
  | Some _ => (k, v) :: remove_key k es
  | None =>
      if Z.of_nat (length es) >=? cap then (k, v) :: removelast es
      else (k, v) :: es
  end.

Lemma put_new_entries_spec c ls k v :
  inv c ls → cache c !! k = None → is_nullish k = false →
  ∃ c' x ls',
    put k v c = (Normal tt, c') ∧
    inv c' (x :: ls') ∧
    capacity c' = capacity c ∧ head c' = head c ∧ tail c' = tail c ∧
    entry_of (store c') x = (k, v) ∧
    (∀ l, l ∈ ls' → entry_of (store c') l = entry_of (store c) l) ∧
    ((Z.of_nat (length ls) < capacity c ∧ ls' = ls)
     ∨ (Z.of_nat (length ls) = capacity c ∧ ∃ lru, ls = ls' ++ [lru])).
Proof.
  intros Hinv Hk Hnull.
  set (x := fresh (dom (store c))).
  set (st0 := <[x := mkNode k v None None]> (store c)).
  pose proof (inv_alloc c ls (mkNode k v None None) Hinv) as Hinv0.
  pose proof (inv_fresh c ls Hinv) as Hfresh.
  fold x in Hinv0, Hfresh. fold st0 in Hinv0.
  assert (is_Some (st0 !! x)) as Hx0 by (unfold st0; by rewrite lookup_insert_eq).
  assert (key_of st0 x = k) as Hkx by apply key_of_insert_eq.
  assert (value_of st0 x = v) as Hvx by apply value_of_insert_eq.
  assert (∀ l, l ∈ ls → entry_of st0 l = entry_of (store c) l) as Hent0.
  { intros l Hl. assert (x ≠ l) as Hne.
    { intros <-. apply Hfresh. rewrite elem_of_cons, elem_of_app. auto. }
    unfold entry_of, st0. by rewrite key_of_insert_ne, value_of_insert_ne. }
  pose proof (inv_bound _ _ Hinv) as Hb.
  pose proof (inv_size _ _ Hinv) as Hsz.
  destruct (Z.of_nat (length ls) >=? capacity c) eqn:Hcond.
  - assert (Z.of_nat (length ls) = capacity c) as Hfull by lia.
    pose proof (inv_capacity _ _ Hinv) as Hcap.
    destruct ls as [|lru ls' _] using rev_ind; [simpl in Hfull; lia|].
    destruct (evict_spec _ _ _ Hinv0) as (st1 & Hrun1 & Hk1 & Hv1 & Hinv1).
    simp_cache.
    assert (key_of st0 lru = key_of (store c) lru) as Hklru.
    { assert (entry_of st0 lru = entry_of (store c) lru) as He.
      { apply Hent0. rewrite elem_of_app, list_elem_of_singleton. auto. }
      by injection He. }
    rewrite Hklru in *.
    destruct (insert_front_spec _ ls' k x Hinv1) as (st2 & Hrun2 & Hinv2 & Hk2 & Hv2);
      simp_cache.
    + apply lookup_delete_None. auto.
    + done.
    + by apply Hk1.
    + intros Hin. apply Hfresh. apply chain_elem_of in Hin.
      apply chain_elem_of. rewrite elem_of_app. tauto.
    + destruct Hk1 as [Hk1 _]. by rewrite Hk1.
    + rewrite length_app in Hfull. simpl in Hfull. lia.
    + destruct Hk2 as [Hk2 _], Hk1 as [Hk1 _].
      eexists _, x, ls'. split_and!.
      * unfold put. rewrite Hnull. apply try_catch_normal.
        unfold cache_get at 1. unfold bind at 1. rewrite Hk.
        unfold new_LRUNode at 1. unfold bind at 1.
        unfold cache_size at 1. unfold bind at 1.
        unfold this_capacity at 1. unfold bind at 1. simp_cache.
        rewrite Hsz, Hcond.
        run_with Hrun1.
        unfold cache_set at 1. unfold bind at 1. simp_cache.
        exact Hrun2.
      * exact Hinv2.
      * done.
      * done.
      * done.
      * simp_cache. unfold entry_of. by rewrite Hk2, Hk1, Hv2, Hv1, Hkx, Hvx.
      * simp_cache. intros l Hl. unfold entry_of at 1.
        rewrite Hk2, Hk1, Hv2, Hv1. apply Hent0. rewrite elem_of_app. auto.
      * right. split; [done|]. by exists lru.
  - assert (Z.of_nat (length ls) < capacity c) as Hroom by lia.
    destruct (insert_front_spec _ ls k x Hinv0) as (st2 & Hrun2 & Hinv2 & Hk2 & Hv2);
      simp_cache; try done.
    destruct Hk2 as [Hk2 _].
    eexists _, x, ls. split_and!.
    + unfold put. rewrite Hnull. apply try_catch_normal.
      unfold cache_get at 1. unfold bind at 1. rewrite Hk.
      unfold new_LRUNode at 1. unfold bind at 1.
      unfold cache_size at 1. unfold bind at 1.
      unfold this_capacity at 1. unfold bind at 1. simp_cache.
      rewrite Hsz, Hcond.
      unfold ret at 1. unfold bind at 1.
      unfold cache_set at 1. unfold bind at 1. simp_cache.
      exact Hrun2.
    + exact Hinv2.
    + done.
    + done.
    + done.
    + simp_cache. unfold entry_of. by rewrite Hk2, Hv2, Hkx, Hvx.
    + simp_cache. intros l Hl. unfold entry_of at 1.
      rewrite Hk2, Hv2. by apply Hent0.
    + left. done.
Qed.

(** *** Entry lists of represented caches *)

Lemma lookup_key_None k es : lookup_key k es = None ↔ k ∉ es.*1.
Proof.
  induction es as [|e es IH]; simpl.
  - split; [intros _|done]. apply not_elem_of_nil.
  - case_decide as He.
    + split; [done|]. intros Hn. exfalso. apply Hn. rewrite He. by left.
    + rewrite IH, not_elem_of_cons. split.
      * intros Hn. split; [congruence|done].
      * by intros [_ Hn].
Qed.

Lemma lookup_key_Some_elem k v es : lookup_key k es = Some v → (k, v) ∈ es.
Proof.
  induction es as [|[k' v'] es IH]; simpl; [done|].
  case_decide as He; simpl in He.
  - intros [= <-]. subst. by left.
  - intros Hl. right. by apply IH.
Qed.

Lemma lookup_key_fresh st (ls : list loc) k :
  (∀ l, l ∈ ls → key_of st l ≠ k) → lookup_key k (entry_of st <$> ls) = None.
Proof.
  intros Hk. apply lookup_key_None. intros Hin.
  apply list_elem_of_fmap in Hin as ([k' v'] & -> & Hin).
  apply list_elem_of_fmap in Hin as (l & [= -> ->] & Hin). by apply (Hk l).
Qed.

Lemma remove_key_fresh st (ls : list loc) k :
  (∀ l, l ∈ ls → key_of st l ≠ k) →
  remove_key k (entry_of st <$> ls) = entry_of st <$> ls.
Proof.
  induction ls as [|l ls IH]; intros Hk; [done|].
  unfold remove_key in *. rewrite fmap_cons, filter_cons_True.
  - f_equal. apply IH. intros l' Hl'. apply Hk. by right.
  - simpl. apply Hk. by left.
Qed.

Lemma keys_apart st (l1 l2 : list loc) x :
  NoDup (key_of st <$> l1 ++ x :: l2) →
  ∀ l, l ∈ l1 ++ l2 → key_of st l ≠ key_of st x.
Proof.
  rewrite fmap_app, fmap_cons. intros Hnd l Hl Heq.
  apply NoDup_app in Hnd as (_ & Hd & Hnd2).
  apply NoDup_cons in Hnd2 as [Hx _].
  apply elem_of_app in Hl as [Hl|Hl].
  - apply (Hd (key_of st l)); [by apply list_elem_of_fmap_2|].
    rewrite Heq. by left.
  - apply Hx. rewrite <- Heq. by apply list_elem_of_fmap_2.
Qed.

Lemma lookup_key_split st (l1 l2 : list loc) x :
  NoDup (key_of st <$> l1 ++ x :: l2) →
  lookup_key (key_of st x) (entry_of st <$> l1 ++ x :: l2) = Some (value_of st x).
Proof.
  intros Hnd. pose proof (keys_apart st l1 l2 x Hnd) as Hk.
  induction l1 as [|l l1 IH]; simpl.
  - by rewrite decide_True.
  - rewrite decide_False.
    + apply IH.
      * simpl in Hnd. by apply NoDup_cons in Hnd as [_ ?].
      * intros l' Hl'. apply Hk. simpl. by right.
    + apply Hk. simpl. by left.
Qed.

Lemma remove_key_split st (l1 l2 : list loc) x :
  NoDup (key_of st <$> l1 ++ x :: l2) →
  remove_key (key_of st x) (entry_of st <$> l1 ++ x :: l2)
  = entry_of st <$> l1 ++ l2.
Proof.
  intros Hnd. pose proof (keys_apart st l1 l2 x Hnd) as Hk.
  unfold remove_key. rewrite !fmap_app, fmap_cons, filter_app, filter_cons_False.
  - f_equal.
    + apply (remove_key_fresh st l1). intros l Hl. apply Hk.
      rewrite elem_of_app. auto.
    + apply (remove_key_fresh st l2). intros l Hl. apply Hk.
      rewrite elem_of_app. auto.
  - simpl. by intros ?.
Qed.

Lemma entries_ext st st' (ls : list loc) :
  (∀ l, l ∈ ls → entry_of st' l = entry_of st l) →
  entry_of st' <$> ls = entry_of st <$> ls.
Proof.
  intros He. apply list_fmap_ext. intros i l Hl. apply He.
  by eapply list_elem_of_lookup_2.
Qed.

Lemma entries_keys st (ls : list loc) :
  (entry_of st <$> ls).*1 = key_of st <$> ls.
Proof. rewrite <- list_fmap_compose. done. Qed.

(** *** Each method acts on the entries as its list counterpart *)

Lemma inv_lookup_fresh c ls k :
  inv c ls → cache c !! k = None → ∀ l, l ∈ ls → key_of (store c) l ≠ k.
Proof.
  intros Hinv Hk l Hl Heq.
  assert (cache c !! k = Some l) as Hs by by apply (inv_index _ _ Hinv).
  congruence.
Qed.

Lemma represents_put c es k v :
  represents c es → is_nullish k = false →
  ∃ c', put k v c = (Normal tt, c') ∧
        represents c' (model_put (capacity c) k v es) ∧
        capacity c' = capacity c.
Proof.
  intros (ls & Hinv & ->) Hnull.
  pose proof (inv_keys_nodup _ _ Hinv) as Hnd.
  destruct (cache c !! k) as [x|] eqn:Hk.
  - destruct (inv_lookup_split c ls k x Hinv Hk) as (l1 & l2 & ->).
    assert (key_of (store c) x = k) as Hkx by by apply (inv_index _ _ Hinv).
    destruct (put_existing_spec c l1 x l2 k v Hinv Hk)
      as (st' & Hput & Hinv' & [Hkeys _] & Hv & Hvs).
    exists (set_store st' c). split_and!; [done| |done].
    exists (x :: l1 ++ l2). split; [done|]. simp_cache.
    unfold model_put. rewrite <- Hkx at 1.
    rewrite lookup_key_split by done. rewrite <- Hkx at 2.
    rewrite remove_key_split by done.
    assert (entry_of st' x = (k, v)) as Hex
      by (unfold entry_of; by rewrite Hkeys, Hv, Hkx).
    rewrite fmap_cons, Hex. f_equal.
    symmetry. apply entries_ext. intros l Hl. unfold entry_of.
    rewrite Hkeys, Hvs; [done|].
    intros ->. pose proof (inv_order_nodup _ _ Hinv') as Hndl.
    apply NoDup_cons in Hndl as [Hx _]. done.
  - destruct (put_new_entries_spec c ls k v Hinv Hk Hnull)
      as (c' & x & ls' & Hput & Hinv' & Hcap & _ & _ & Hex & Hes & Hcase).
    exists c'. split_and!; [done| |done].
    exists (x :: ls'). split; [done|].
    unfold model_put.
    rewrite lookup_key_fresh by by apply (inv_lookup_fresh c).
    rewrite length_fmap, fmap_cons, Hex, (entries_ext _ _ _ Hes).
    destruct Hcase as [(Hlt & ->)|(Hfull & lru & ->)].
    + destruct (Z.geb_spec (Z.of_nat (length ls)) (capacity c)); [lia|done].
    + destruct (Z.geb_spec (Z.of_nat (length (ls' ++ [lru]))) (capacity c));
        [|lia].
      rewrite fmap_app.
      change (entry_of (store c) <$> [lru]) with [entry_of (store c) lru].
      by rewrite removelast_last.
Qed.

Lemma represents_get c es k :
  represents c es →
  match model_get k es with
  | Some (v, es') =>
      ∃ c', get k c = (Normal v, c') ∧ represents c' es' ∧
            capacity c' = capacity c
  | None => get k c = (Throw (miss_exception k), c)
  end.
Proof.
  intros (ls & Hinv & ->).
  pose proof (inv_keys_nodup _ _ Hinv) as Hnd.
  unfold model_get.
  destruct (cache c !! k) as [x|] eqn:Hk.
  - destruct (inv_lookup_split c ls k x Hinv Hk) as (l1 & l2 & ->).
    destruct (get_hit_spec c l1 x l2 k Hinv Hk)
      as (st' & Hkx & Hget & Hinv' & [Hkeys _] & Hvs).
    subst k. rewrite lookup_key_split by done.
    exists (set_store st' c). split_and!; [done| |done].
    exists (x :: l1 ++ l2). split; [done|]. simp_cache.
    rewrite remove_key_split by done.
    assert (entry_of st' x = (key_of (store c) x, value_of (store c) x)) as Hex
      by (unfold entry_of; by rewrite Hkeys, Hvs).
    rewrite fmap_cons, Hex. f_equal.
    symmetry. apply entries_ext. intros l Hl. unfold entry_of.
    by rewrite Hkeys, Hvs.
  - rewrite lookup_key_fresh by by apply (inv_lookup_fresh c).
    by apply get_miss.
Qed.

Lemma represents_clear c es :
  represents c es →
  ∃ c', clear c = (Normal tt, c') ∧ represents c' [] ∧
        capacity c' = capacity c.
Proof.
  intros (ls & Hinv & ->).
  destruct (clear_spec c ls Hinv) as (st' & Hclear & Hinv' & _).
  eexists. split_and!; [done| |done]. by exists [].
Qed.

Lemma represents_queries c es :
  represents c es →
  size_ c = length es ∧
  Z.of_nat (length es) ≤ capacity c ∧
  NoDup es.*1 ∧
  (∀ k, has k c = true ↔ k ∈ es.*1) ∧
  (∀ fuel, (length es < fuel)%nat → keys fuel c = (Normal es.*1, c)) ∧
  (∀ fuel, (fuel ≤ length es)%nat → keys fuel c = (OutOfFuel, c)).
Proof.
  intros (ls & Hinv & ->). rewrite entries_keys, length_fmap. split_and!.
  - by apply inv_size.
  - by apply inv_bound.
  - by apply inv_keys_nodup.
  - intros k. by apply inv_has.
  - intros fuel Hfuel. by apply (run_keys c ls).
  - intros fuel Hfuel. by apply (run_keys_short c ls).
Qed.

Lemma represents_constructor n c :
  constructor n = Normal c → represents c [].
Proof. intros Hc. exists []. split; [by eapply constructor_inv|done]. Qed.

Lemma wf_represents c : wf c → ∃ es, represents c es.
Proof. intros [ls Hinv]. by exists (entry_of (store c) <$> ls), ls. Qed.

(** *** What a caller observes of a call *)









Lemma get_normal_lookup c es k v c' :
  represents c es → get k c = (Normal v, c') →
  lookup_key k es = Some v ∧ represents c' ((k, v) :: remove_key k es).
Proof.
  intros Hrep Hget. pose proof (represents_get c es k Hrep) as Hg.
  unfold model_get in Hg. destruct (lookup_key k es) as [v0|].
  - destruct Hg as (c0 & Hg & Hrep' & _). rewrite Hget in Hg.
    injection Hg as -> ->. done.
  - by rewrite Hget in Hg.
Qed.

Lemma lookup_get c es k v :
  represents c es → lookup_key k es = Some v →
  ∃ c', get k c = (Normal v, c').
Proof.
  intros Hrep Hl. pose proof (represents_get c es k Hrep) as Hg.
  unfold model_get in Hg. rewrite Hl in Hg.
  destruct Hg as (c' & Hg & _). by exists c'.
Qed.

Lemma lookup_key_remove_ne k k' es :
  k' ≠ k → lookup_key k' (remove_key k es) = lookup_key k' es.
Proof.
  intros Hne. unfold remove_key. induction es as [|e es IH]; [done|].
  destruct (decide (e.1 = k)) as [He|He].
  - rewrite filter_cons_False by (simpl; by intros ?). simpl.
    rewrite decide_False by congruence. done.
  - rewrite filter_cons_True by done. simpl. by rewrite IH.
Qed.

Lemma lookup_key_app k es1 es2 :
  lookup_key k (es1 ++ es2)
  = match lookup_key k es1 with
    | Some v => Some v
    | None => lookup_key k es2
    end.
Proof.
  induction es1 as [|e es1 IH]; [done|]. simpl. by case_decide.
Qed.

Lemma lookup_key_removelast k es :
  k ∈ (removelast es).*1 → lookup_key k (removelast es) = lookup_key k es.
Proof.
  intros Hin. destruct es as [|e es _] using rev_ind; [done|].
  rewrite removelast_last in *. rewrite lookup_key_app.
  destruct (lookup_key k es) eqn:Hl; [done|].
  by apply lookup_key_None in Hl.
Qed.

(** X1.  On a reachable cache with room left ([size() < capacity]),
    [put] of a valid key that is not present returns normally, evicts
    nothing and puts the key in front: [size()] grows by one, [keys()]
    becomes the new key followed by the old keys, and a key is present
    afterwards exactly when it is the new key or was present before. *)
Theorem put_new_key_with_room (c : LRUCache) (k : K) (v : js V) :
  reachable c →
  has (Val k) c = false →
  Z.of_nat (size_ c) < capacity c →
  ∃ ks c',
    (∀ fuel, (size_ c < fuel)%nat → keys fuel c = (Normal ks, c)) ∧
    put (Val k) v c = (Normal tt, c') ∧
    size_ c' = S (size_ c) ∧
    (∀ k', has k' c' = true ↔ k' = Val k ∨ has k' c = true) ∧
    (∀ fuel, (size_ c' < fuel)%nat → keys fuel c' = (Normal (Val k :: ks), c')).
Proof.
  intros Hr Hk Hroom.
  destruct (wf_represents c (reachable_wf c Hr)) as [es Hrep].
  pose proof (represents_queries c es Hrep) as (Hsz & _ & _ & Hhas & Hkeys & _).
  destruct (represents_put c es (Val k) v Hrep eq_refl) as (c' & Hput & Hrep' & _).
  assert (model_put (capacity c) (Val k) v es = (Val k, v) :: es) as Hm.
  { unfold model_put.
    assert (lookup_key (Val k) es = None) as ->.
    { apply lookup_key_None. intros Hin. apply Hhas in Hin. congruence. }
    destruct (Z.geb_spec (Z.of_nat (length es)) (capacity c)); [lia|done]. }
  rewrite Hm in Hrep'.
  pose proof (represents_queries c' _ Hrep') as (Hsz' & _ & _ & Hhas' & Hkeys' & _).
  simpl in *. exists es.*1, c'. split_and!.
  - intros fuel Hfuel. apply Hkeys. lia.
  - done.
  - by rewrite Hsz', Hsz.
  - intros k'. rewrite Hhas', Hhas, elem_of_cons. done.
  - intros fuel Hfuel. apply Hkeys'. lia.
Qed.

(** X2.  On a reachable cache [clear] returns normally and leaves an
    empty cache of the same capacity: [size()] is 0, [keys()] is empty, no
    key is present, and [get] of any key whose [KeyNotFoundError] message
    can be built throws that [KeyNotFoundError]. *)
Theorem clear_empties_the_cache (c : LRUCache) :
  reachable c →
  ∃ c',
    clear c = (Normal tt, c') ∧
    capacity c' = capacity c ∧
    size_ c' = 0%nat ∧
    (∀ k, has k c' = false) ∧
    (∀ fuel, (0 < fuel)%nat → keys fuel c' = (Normal [], c')) ∧
    (∀ k, description_error k = None →
          get k c' = (Throw (KeyNotFoundError k), c')).
Proof.
  intros Hr.
  destruct (wf_represents c (reachable_wf c Hr)) as [es Hrep].
  destruct (represents_clear c es Hrep) as (c' & Hclear & Hrep' & Hcap).
  pose proof (represents_queries c' _ Hrep') as (Hsz' & _ & _ & Hhas' & Hkeys' & _).
  assert (∀ k, has k c' = false) as Hnone.
  { intros k. destruct (has k c') eqn:Hh; [|done].
    apply Hhas' in Hh. by apply elem_of_nil in Hh. }
  exists c'. split_and!; try done.
  intros k Hd. apply get_miss_described; [|done]. by apply has_false.
Qed.

Lemma constructor_capacity n c :
  constructor n = Normal c → is_integer n (capacity c).
Proof.
  unfold constructor.
  destruct (negb (Number_isInteger n) || number_le_zero n) eqn:Hc; [done|].
  intros [= <-]. simp_cache.
  apply positive_integer_check in Hc as (z & Hz & q & -> & Hq).
  exists q. split; [done|]. simpl.
  by rewrite (Qred_complete _ _ Hq), Qred_inject_Z.
Qed.


(** X10.  [put] does not disturb the values of other keys: on a reachable
    cache, if [get(k')] would return [v'], then after [put(k, v)] with a
    valid key [k] other than [k'], [get(k')] still returns [v'], provided
    [k'] was not the entry evicted. *)
Theorem put_keeps_other_values (c : LRUCache) (k k' : js K) (v v' : js V)
    (cg c' : LRUCache) :
  reachable c →
  is_nullish k = false →
  k' ≠ k →
  get k' c = (Normal v', cg) →
  put k v c = (Normal tt, c') →
  has k' c' = true →
  ∃ c'', get k' c' = (Normal v', c'').
Proof.
  intros Hr Hnull Hne Hget Hput Hhas.
  destruct (wf_represents c (reachable_wf c Hr)) as [es Hrep].
  destruct (get_normal_lookup c es k' v' cg Hrep Hget) as [Hl _].
  destruct (represents_put c es k v Hrep Hnull) as (c1 & Hput1 & Hrep' & _).
  rewrite Hput in Hput1. injection Hput1 as <-.
  apply (lookup_get c' _ k' v' Hrep').
  pose proof (represents_queries c' _ Hrep') as (_ & _ & _ & Hhas' & _).
  apply Hhas' in Hhas. revert Hhas. unfold model_put.
  destruct (lookup_key k es).
  - intros _. simpl. rewrite decide_False by congruence.
    by rewrite lookup_key_remove_ne.
  - destruct (Z.of_nat (length es) >=? capacity c); simpl;
      rewrite decide_False by congruence; [|done].
    rewrite elem_of_cons. intros [?|Hin]; [done|].
    by rewrite lookup_key_removelast.
Qed.

(** X11.  [get] changes no value: on a reachable cache, if [get(k)]
    returns normally, every key [k'] (the same or another) for which
    [get] would have returned [v'] still yields [v'] afterwards. *)
Theorem get_keeps_values (c : LRUCache) (k k' : js K) (v v' : js V)
    (c1 c2 : LRUCache) :
  reachable c →
  get k c = (Normal v, c1) →
  get k' c = (Normal v', c2) →
  ∃ c3, get k' c1 = (Normal v', c3).
Proof.
  intros Hr Hget Hget'.
  destruct (wf_represents c (reachable_wf c Hr)) as [es Hrep].
  destruct (get_normal_lookup c es k v c1 Hrep Hget) as [Hl Hrep1].
  destruct (get_normal_lookup c es k' v' c2 Hrep Hget') as [Hl' _].
  apply (lookup_get c1 _ k' v' Hrep1). simpl.
  case_decide as Hk.
  - subst. congruence.
  - rewrite lookup_key_remove_ne; [done|]. by intros ->.
Qed.

(** *** Behaviour in arbitrary states *)

Lemma keys_loop_S fuel current acc c :
  keys_loop (S fuel) current acc c
  = if decide (current = Some (tail c)) then (Normal acc, c)
    else match current with
         | None =>
             (Throw (LRUCacheError "Invalid cache state: broken link in chain"), c)
         | Some cur =>
             match store c !! cur with
             | Some n => keys_loop fuel (next n) (acc ++ [key n]) c
             | None => (Stuck, c)
             end
         end.
Proof.
  simpl. unfold bind at 1, this_tail at 1.
  case_decide; [done|]. destruct current as [cur|]; [|done].
  destruct (store c !! cur) as [n|] eqn:Hcur.
  - assert (is_Some (store c !! cur)) as Hs by by rewrite Hcur.
    run_with run_get_key; [|done]. run_with run_get_next; [|done].
    unfold nxt, key_of. by rewrite Hcur.
  - unfold bind at 1. unfold get_key, bind, read. by rewrite Hcur.
Qed.

Lemma keys_loop_more_fuel fuel :
  ∀ fuel' current acc c,
    (fuel ≤ fuel')%nat →
    fst (keys_loop fuel current acc c) ≠ OutOfFuel →
    keys_loop fuel' current acc c = keys_loop fuel current acc c.
Proof.
  induction fuel as [|fuel IH]; intros fuel' current acc c Hle Hres; [done|].
  destruct fuel' as [|fuel']; [lia|].
  rewrite keys_loop_S in Hres. rewrite !keys_loop_S.
  case_decide; [done|]. destruct current as [cur|]; [|done].
  destruct (store c !! cur) as [n|]; [|done].
  apply IH; [lia|done].
Qed.

(** X3.  [keys] is a pure query in every state of the cache object, also
    one whose links are broken: however the call ends, the object is left
    exactly as it was.  The fuel of the embedding only cuts the loop off:
    once the loop has ended within some fuel, more fuel gives the same
    outcome. *)
Theorem keys_is_a_pure_query (c : LRUCache) (fuel : nat) :
  snd (keys fuel c) = c ∧
  (∀ fuel', (fuel ≤ fuel')%nat →
            fst (keys fuel c) ≠ OutOfFuel →
            keys fuel' c = keys fuel c).
Proof.
  split; [apply keys_state|].
  intros fuel' Hle. unfold keys, try_catch.
  unfold this_head at 1 2 3. unfold bind at 1 3 5.
  destruct (store c !! head c) as [n|] eqn:Hh.
  - assert (is_Some (store c !! head c)) as Hs by by rewrite Hh.
    run_with run_get_next; [|done]. intros Hres.
    symmetry. run_with run_get_next; [|done]. symmetry.
    rewrite (keys_loop_more_fuel fuel fuel'); [done|done|].
    intros Hout. apply Hres.
    destruct (keys_loop fuel (nxt (store c) (head c)) [] c) as [[ks|e| |] c'];
      done.
  - unfold get_next, bind, read. by rewrite Hh.
Qed.



(** [broken_chain st p ls]: following [next] from [p] one passes through
    the nodes [ls] and then meets [null]. *)
Fixpoint broken_chain (st : gmap loc LRUNode) (p : loc) (ls : list loc) : Prop :=
  match ls with
  | [] => is_Some (st !! p) ∧ nxt st p = None
  | l :: ls' => nxt st p = Some l ∧ broken_chain st l ls'
  end.

Lemma run_keys_loop_broken c ls :
  ∀ p acc fuel,
    broken_chain (store c) p ls →
    tail c ∉ ls →
    (length ls < fuel)%nat →
    keys_loop fuel (nxt (store c) p) acc c
    = (Throw (LRUCacheError "Invalid cache state: broken link in chain"), c).
Proof.
  induction ls as [|x ls IH]; intros p acc fuel Hb Ht Hfuel;
    (destruct fuel as [|fuel]; [simpl in Hfuel; lia|]); simpl in Hb.
  - destruct Hb as [_ ->]. rewrite keys_loop_S. by rewrite decide_False.
  - destruct Hb as [Hp Hb]. rewrite Hp, keys_loop_S.
    rewrite decide_False; [|intros [= ->]; apply Ht; apply elem_of_cons; auto].
    assert (is_Some (store c !! x)) as [n Hx].
    { destruct ls; simpl in Hb; [tauto|]. destruct Hb as [Hb _].
      by eapply nxt_is_Some. }
    rewrite Hx.
    replace (next n) with (nxt (store c) x) by (unfold nxt; by rewrite Hx).
    apply IH; [done| |simpl in Hfuel; lia].
    intros Hin. apply Ht. apply elem_of_cons; auto.
Qed.

(** X7.  In any state where the chain of [next] links from [head] ends in
    [null] before reaching [tail], [keys()] throws the [LRUCacheError]
    that wraps "Invalid cache state: broken link in chain", and leaves
    the object unchanged. *)
Theorem keys_on_broken_chain (c : LRUCache) (ls : list loc) (fuel : nat) :
  broken_chain (store c) (head c) ls →
  tail c ∉ ls →
  (length ls < fuel)%nat →
  keys fuel c
  = (Throw (LRUCacheErrorWrapping "Error getting keys" None
              (LRUCacheError "Invalid cache state: broken link in chain")), c).
Proof.
  intros Hb Ht Hfuel. unfold keys, try_catch.
  unfold this_head at 1. unfold bind at 1.
  assert (is_Some (store c !! head c)) as Hh.
  { destruct ls; simpl in Hb; [tauto|]. destruct Hb as [Hb _].
    by eapply nxt_is_Some. }
  run_with run_get_next; [|done].
  by rewrite (run_keys_loop_broken c ls).
Qed.


(** *** Which exceptions can leave a method *)

(** [key_converts o]: the key the call [o] carries, if any, converts to
    text: neither [String(key)] nor the message of [KeyNotFoundError]
    throws.  This holds of every call with a primitive key. *)
Definition key_converts (o : op) : Prop :=
  match o with
  | OpPut k _ | OpGet k | OpGetSafe k =>
      String_error k = None ∧ description_error k = None
  | OpHas _ | OpSize | OpClear | OpKeys _ => True
  end.

Lemma thrown_by_wrap {A} (m : M A) (W : exn K → exn K) k c e :
  String_error k = None →
  thrown_by (try_catch m (λ error, String_ k;; throw (W error)) c) = Some e →
  ∃ cause, e = W cause.
Proof.
  intros Hs. unfold thrown_by, try_catch.
  destruct (m c) as [[a|e0| |] c']; simpl; try done.
  unfold String_, raising, bind. rewrite Hs. simpl.
  intros [= <-]. eauto.
Qed.

Lemma thrown_by_get c k e :
  String_error k = None →
  description_error k = None →
  thrown_by (get k c) = Some e →
  (has k c = false ∧ e = KeyNotFoundError k)
  ∨ ∃ cause, e = LRUCacheErrorWrapping "Error accessing key" (Some k) cause.
Proof.
  intros Hs Hd. destruct (cache c !! k) as [x|] eqn:Hk.
  - unfold get. unfold cache_get at 1. unfold bind at 1. rewrite Hk.
    intros He. right.
    by apply (thrown_by_wrap _ (LRUCacheErrorWrapping "Error accessing key" (Some k)))
      in He.
  - rewrite get_miss_described by done. intros [= <-]. left. split; [|done].
    by apply has_false.
Qed.

(** [no_throw m]: the computation [m] never ends with an exception. *)
Definition no_throw {A} (m : M A) : Prop := ∀ c, thrown_by (m c) = None.

Lemma no_throw_bind {A B} (m : M A) (f : A → M B) :
  no_throw m → (∀ a, no_throw (f a)) → no_throw (bind m f).
Proof.
  intros Hm Hf c. specialize (Hm c). unfold bind, thrown_by in *.
  destruct (m c) as [[a|e| |] c']; simpl in *; try done. apply Hf.
Qed.

Lemma no_throw_modify f l : no_throw (modify f l).
Proof. intros c. unfold modify, thrown_by. by destruct (store c !! l). Qed.

Lemma no_throw_clear_body :
  no_throw
    (cache_clear;;
     let* h := this_head in
     let* t := this_tail in
     set_next h (Some t);;
     let* t' := this_tail in
     let* h' := this_head in
     set_prev t' (Some h')).
Proof.
  apply no_throw_bind; [done|]. intros _.
  apply no_throw_bind; [done|]. intros h.
  apply no_throw_bind; [done|]. intros t.
  apply no_throw_bind; [apply no_throw_modify|]. intros _.
  apply no_throw_bind; [done|]. intros t'.
  apply no_throw_bind; [done|]. intros h'.
  apply no_throw_modify.
Qed.

Lemma keys_loop_throw fuel :
  ∀ current acc c e c',
    keys_loop fuel current acc c = (Throw e, c') →
    e = LRUCacheError "Invalid cache state: broken link in chain".
Proof.
  induction fuel as [|fuel IH]; intros current acc c e c'; [done|].
  rewrite keys_loop_S. case_decide; [done|].
  destruct current as [cur|]; [|by intros [= <- _]].
  destruct (store c !! cur) as [n|]; [|done]. apply IH.
Qed.

Lemma thrown_by_keys c fuel e :
  thrown_by (keys fuel c) = Some e →
  e = LRUCacheErrorWrapping "Error getting keys" None
        (LRUCacheError "Invalid cache state: broken link in chain").
Proof.
  unfold keys, thrown_by, try_catch.
  unfold this_head at 1. unfold bind at 1.
  destruct (store c !! head c) as [n|] eqn:Hh.
  - run_with run_get_next; [|by rewrite Hh].
    destruct (keys_loop fuel (nxt (store c) (head c)) [] c)
      as [[ks|e0| |] c'] eqn:Hloop; simpl; try done.
    apply keys_loop_throw in Hloop as ->. by intros [= <-].
  - unfold get_next, bind, read. by rewrite Hh.
Qed.

(** X4.  Take any state in which the [cache] field is a [Map] and [head]
    and [tail] are nodes, the [prev] and [next] links of the nodes being
    anything, and any call whose key converts to text (every call with a
    primitive key).  Each exception that leaves the call is an instance
    of [LRUCacheError], and of a fixed shape: [put] throws either its
    null-key error or an error wrapped with "Error putting key"; [get]
    throws [KeyNotFoundError] (only for an absent key) or an error wrapped
    with "Error accessing key"; [getSafe] throws only the latter, never
    [KeyNotFoundError]; [keys] throws only the wrapped broken-link error;
    [clear], [has] and [size] throw nothing.  In particular no
    [TypeError] of a [null] link escapes. *)
Theorem every_exception_is_an_LRUCacheError (c : LRUCache) (o : op) (e : exn K) :
  key_converts o →
  thrown o c = Some e →
  instanceof e CLRUCacheError = true ∧
  match o with
  | OpPut k _ =>
      (is_nullish k = true ∧
       e = LRUCacheError "Key cannot be null or undefined")
      ∨ ∃ cause, e = LRUCacheErrorWrapping "Error putting key" (Some k) cause
  | OpGet k =>
      (has k c = false ∧ e = KeyNotFoundError k)
      ∨ ∃ cause, e = LRUCacheErrorWrapping "Error accessing key" (Some k) cause
  | OpGetSafe k =>
      ∃ cause, e = LRUCacheErrorWrapping "Error accessing key" (Some k) cause
  | OpKeys _ =>
      e = LRUCacheErrorWrapping "Error getting keys" None
            (LRUCacheError "Invalid cache state: broken link in chain")
  | OpHas _ | OpSize | OpClear => False
  end.
Proof.
  destruct o as [k v|k|k|k| | |fuel]; simpl; intros Hconv He.
  - destruct Hconv as [Hs _]. unfold put in He.
    destruct (is_nullish k) eqn:Hnull.
    + injection He as <-. split; [done|]. by left.
    + apply (thrown_by_wrap _ (LRUCacheErrorWrapping "Error putting key" (Some k)))
        in He as [cause ->]; [|done].
      split; [done|]. right. by exists cause.
  - destruct Hconv as [Hs Hd].
    apply thrown_by_get in He as [[Hk ->]|[cause ->]]; [| |done|done].
    + split; [done|]. by left.
    + split; [done|]. right. by exists cause.
  - destruct Hconv as [Hs Hd].
    unfold getSafe, try_catch, thrown_by in He.
    destruct (get k c) as [[v|e0| |] c'] eqn:Hget; simpl in He; try done.
    assert (thrown_by (get k c) = Some e0) as He0
      by (unfold thrown_by; by rewrite Hget).
    apply thrown_by_get in He0 as [[_ ->]|[cause ->]]; simpl in He;
      [done| |done|done].
    injection He as <-. split; [done|]. by exists cause.
  - done.
  - done.
  - unfold clear, thrown_by, try_catch in He.
    pose proof (no_throw_clear_body c) as Hn. unfold thrown_by in Hn.
    destruct ((cache_clear;; _) c) as [[[]|e0| |] c']; simpl in *; done.
  - apply thrown_by_keys in He as ->. done.
Qed.

(** *** What no method changes *)

(** [same_frame c c']: [c'] has the capacity and the two sentinels of [c]. *)
Definition same_frame (c c' : LRUCache) : Prop :=
  capacity c' = capacity c ∧ head c' = head c ∧ tail c' = tail c.

Definition keeps_frame {A} (m : M A) : Prop := ∀ c, same_frame c (snd (m c)).

Lemma keeps_frame_bind {A B} (m : M A) (f : A → M B) :
  keeps_frame m → (∀ a, keeps_frame (f a)) → keeps_frame (bind m f).
Proof.
  intros Hm Hf c. specialize (Hm c). unfold bind.
  destruct (m c) as [[a|e| |] c']; simpl in *; try done.
  destruct Hm as (? & ? & ?), (Hf a c') as (? & ? & ?).
  split_and!; congruence.
Qed.

Lemma keeps_frame_try_catch {A} (m : M A) (h : exn K → M A) :
  keeps_frame m → (∀ e, keeps_frame (h e)) → keeps_frame (try_catch m h).
Proof.
  intros Hm Hh c. specialize (Hm c). unfold try_catch.
  destruct (m c) as [[a|e| |] c']; simpl in *; try done.
  destruct Hm as (? & ? & ?), (Hh e c') as (? & ? & ?).
  split_and!; congruence.
Qed.

Lemma keeps_frame_read l : keeps_frame (read l).
Proof. intros c. unfold read. by destruct (store c !! l). Qed.

Lemma keeps_frame_modify f l : keeps_frame (modify f l).
Proof. intros c. unfold modify. by destruct (store c !! l). Qed.

Lemma keeps_frame_field {A} (f : LRUNode → A) l :
  keeps_frame (let* n := read l in ret (f n)).
Proof. apply keeps_frame_bind; [apply keeps_frame_read|done]. Qed.

Lemma keeps_frame_nonnull r : keeps_frame (nonnull r).
Proof. by destruct r. Qed.

Lemma keeps_frame_removeNode x : keeps_frame (removeNode x).
Proof.
  apply keeps_frame_bind; [apply keeps_frame_field|]. intros p.
  apply keeps_frame_bind; [apply keeps_frame_field|]. intros n.
  destruct p, n; try done.
  apply keeps_frame_bind; [apply keeps_frame_modify|]. intros _.
  apply keeps_frame_modify.
Qed.

Lemma keeps_frame_addToFront x : keeps_frame (addToFront x).
Proof.
  apply keeps_frame_bind; [done|]. intros h.
  apply keeps_frame_bind; [apply keeps_frame_field|]. intros [f|]; [|done].
  apply keeps_frame_bind; [done|]. intros h1.
  apply keeps_frame_bind; [apply keeps_frame_modify|]. intros _.
  apply keeps_frame_bind; [done|]. intros h2.
  apply keeps_frame_bind; [apply keeps_frame_field|]. intros hn2.
  apply keeps_frame_bind; [apply keeps_frame_modify|]. intros _.
  apply keeps_frame_bind; [done|]. intros h3.
  apply keeps_frame_bind; [apply keeps_frame_field|]. intros hn3.
  apply keeps_frame_bind; [apply keeps_frame_nonnull|]. intros first.
  apply keeps_frame_bind; [apply keeps_frame_modify|]. intros _.
  apply keeps_frame_bind; [done|]. intros h4.
  apply keeps_frame_modify.
Qed.

Lemma keeps_frame_raising r : keeps_frame (raising r).
Proof. by destruct r. Qed.

Lemma keeps_frame_wrapper {A} k (e : exn K) :
  keeps_frame (A:=A) (String_ k;; throw e).
Proof. apply keeps_frame_bind; [apply keeps_frame_raising|done]. Qed.

Lemma keeps_frame_get k : keeps_frame (get k).
Proof.
  apply keeps_frame_bind; [done|]. intros [x|].
  2:{ apply keeps_frame_bind; [|done].
      apply keeps_frame_bind; [apply keeps_frame_raising|done]. }
  apply keeps_frame_try_catch; [|intros e; apply keeps_frame_wrapper].
  apply keeps_frame_bind; [apply keeps_frame_removeNode|]. intros _.
  apply keeps_frame_bind; [apply keeps_frame_addToFront|]. intros _.
  apply keeps_frame_field.
Qed.

Lemma keeps_frame_getSafe k : keeps_frame (getSafe k).
Proof.
  apply keeps_frame_try_catch; [apply keeps_frame_get|].
  intros e. by destruct (instanceof e CKeyNotFoundError).
Qed.

Lemma keeps_frame_put k v : keeps_frame (put k v).
Proof.
  unfold put. destruct (is_nullish k); [done|].
  apply keeps_frame_try_catch; [|intros e; apply keeps_frame_wrapper].
  apply keeps_frame_bind; [done|]. intros [x|].
  - apply keeps_frame_bind; [apply keeps_frame_modify|]. intros _.
    apply keeps_frame_bind; [apply keeps_frame_removeNode|]. intros _.
    apply keeps_frame_addToFront.
  - apply keeps_frame_bind; [done|]. intros x.
    apply keeps_frame_bind; [done|]. intros sz.
    apply keeps_frame_bind; [done|]. intros cap.
    apply keeps_frame_bind.
    + destruct (Z.of_nat sz >=? cap); [|done].
      apply keeps_frame_bind; [done|]. intros t.
      apply keeps_frame_bind; [apply keeps_frame_field|]. intros tp.
      apply keeps_frame_bind; [apply keeps_frame_nonnull|]. intros lru.
      apply keeps_frame_bind; [apply keeps_frame_removeNode|]. intros _.
      apply keeps_frame_bind; [apply keeps_frame_field|]. by intros k'.
    + intros _. apply keeps_frame_bind; [done|]. intros _.
      apply keeps_frame_addToFront.
Qed.

Lemma keeps_frame_clear : keeps_frame clear.
Proof.
  apply keeps_frame_try_catch; [|done].
  apply keeps_frame_bind; [done|]. intros _.
  apply keeps_frame_bind; [done|]. intros h.
  apply keeps_frame_bind; [done|]. intros t.
  apply keeps_frame_bind; [apply keeps_frame_modify|]. intros _.
  apply keeps_frame_bind; [done|]. intros t'.
  apply keeps_frame_bind; [done|]. intros h'.
  apply keeps_frame_modify.
Qed.

(** X5.  No public method ever changes the capacity or replaces a
    sentinel node: in every state of the cache object and for every call,
    however it ends, [capacity], [head] and [tail] are afterwards what
    they were before. *)
Theorem capacity_and_sentinels_are_fixed (c : LRUCache) (o : op) :
  capacity (exec o c) = capacity c ∧
  head (exec o c) = head c ∧
  tail (exec o c) = tail c.
Proof.
  destruct o as [k v|k|k|k| | |fuel]; simpl.
  - apply keeps_frame_put.
  - apply keeps_frame_get.
  - apply keeps_frame_getSafe.
  - done.
  - done.
  - apply keeps_frame_clear.
  - by rewrite keys_state.
Qed.

(** *** The bound is the constructor's argument *)

(** [constructed n c]: the state [c] is reached from [new LRUCache(n)] by
    a sequence of public calls. *)
Inductive constructed (n : number) : LRUCache → Prop :=
| constructed_new c : constructor n = Normal c → constructed n c
| constructed_step o c : constructed n c → constructed n (exec o c).

Lemma exec_capacity o c : capacity (exec o c) = capacity c.
Proof.
  destruct o as [k v|k|k|k| | |fuel]; simpl.
  - apply keeps_frame_put.
  - apply keeps_frame_get.
  - apply keeps_frame_getSafe.
  - done.
  - done.
  - apply keeps_frame_clear.
  - by rewrite keys_state.
Qed.

Lemma constructed_reachable n c : constructed n c → reachable c.
Proof.
  induction 1 as [c Hc|o c _ IH].
  - by apply (reachable_new n).
  - by apply reachable_step.
Qed.

Lemma constructed_capacity n c :
  constructed n c → is_integer n (capacity c).
Proof.
  induction 1 as [c Hc|o c _ IH].
  - by apply constructor_capacity.
  - by rewrite exec_capacity.
Qed.

(** C2 (invariant).  In every state reached from [new LRUCache(n)] by
    public calls ([put], [get], [getSafe], [has], [size], [clear],
    [keys]), the argument [n] is an integer [cap] and [size() <= cap];
    and the [Map] and the recency order are in bijection: there is a
    duplicate-free list [ls] of nodes chained between the sentinels such
    that the [Map] sends a key to a node exactly when the node is in [ls]
    and carries that key; [ls] has [size()] elements; and [keys()]
    returns their keys in order, so it has length [size()], no
    duplicates, and holds exactly the keys [has] accepts. *)
Theorem constructed_cache_invariant (n : number) (c : LRUCache) :
  constructed n c →
  ∃ cap : Z,
    is_integer n cap ∧
    Z.of_nat (size_ c) ≤ cap ∧
    ∃ (ls : list loc) (ks : list (js K)),
      NoDup ls ∧
      linked (store c) (head c :: ls ++ [tail c]) ∧
      (∀ k l, cache c !! k = Some l ↔ l ∈ ls ∧ key_of (store c) l = k) ∧
      length ls = size_ c ∧
      ks = key_of (store c) <$> ls ∧
      (∀ fuel, (size_ c < fuel)%nat → keys fuel c = (Normal ks, c)) ∧
      length ks = size_ c ∧
      NoDup ks ∧
      (∀ k, has k c = true ↔ k ∈ ks).
Proof.
  intros Hc.
  pose proof (constructed_capacity n c Hc) as Hcap.
  destruct (reachable_invariant c (constructed_reachable n c Hc))
    as (Hbound & ls & ks & Hrest).
  exists (capacity c). split_and!; [done|done|].
  by exists ls, ks.
Qed.

(** *** How long a used key stays *)









End Cache.

Arguments LRUNode K V : clear implicits.
Arguments LRUCache K {_ _} V.
Arguments completion K A : clear implicits.
Arguments Normal {K A} a.
Arguments Throw {K A} e.
Arguments Stuck {K A}.
Arguments OutOfFuel {K A}.

End LRU.

(** ** Concrete runs: caches of strings to integers *)

Module Demo.
Import LRU.

Definition cache_of (r : completion string (LRUCache string Z))
  : LRUCache string Z :=
  match r with
  | Normal c => c
  | _ => mkCache 0 ∅ 0%nat 0%nat ∅
  end.

(** [new LRUCache<string, number>(2)] *)
Definition empty2 : LRUCache string Z := cache_of (constructor (of_Z 2)).

(** ... after [put("a", 1)] *)
Definition one2 : LRUCache string Z :=
  exec (OpPut (Val "a"%string) (Val 1)) empty2.

(** ... after [put("a", 1); put("b", 2)]: the cache is full. *)
Definition full2 : LRUCache string Z :=
  exec (OpPut (Val "b"%string) (Val 2)) one2.

Lemma empty2_reachable : reachable empty2.
Proof. apply (reachable_new (of_Z 2)). reflexivity. Qed.

Lemma one2_reachable : reachable one2.
Proof. apply reachable_step, empty2_reachable. Qed.

Lemma full2_reachable : reachable full2.
Proof. apply reachable_step, one2_reachable. Qed.

(** Scenario 1 of the specification: capacity 2; [put(a,1); put(b,2);
    get(a)] returns 1 and [keys()] is [[a, b]]; then [put(c,3)] evicts
    [b], [keys()] is [[c, a]] and [get(b)] throws [KeyNotFoundError]. *)
Example scenario_1 :
  let s1 := full2 in
  let r := get (Val "a"%string) s1 in
  let s2 := snd r in
  let s3 := snd (put (Val "c"%string) (Val 3) s2) in
  fst r = Normal (Val 1) ∧
  fst (keys 3 s2) = Normal [Val "a"%string; Val "b"%string] ∧
  fst (keys 3 s3) = Normal [Val "c"%string; Val "a"%string] ∧
  fst (get (Val "b"%string) s3) = Throw (KeyNotFoundError (Val "b"%string)).
Proof. vm_compute. by split_and!. Qed.

(** Scenario 2: capacity 3; [put(a,1); put(b,2); put(c,3); get(a);
    put(d,4)] evicts [b]; [keys()] is [[d, a, c]]. *)
Example scenario_2 :
  let s0 := cache_of (constructor (of_Z 3)) in
  let s1 := exec (OpPut (Val "c"%string) (Val 3))
              (exec (OpPut (Val "b"%string) (Val 2))
                 (exec (OpPut (Val "a"%string) (Val 1)) s0)) in
  let s2 := exec (OpPut (Val "d"%string) (Val 4))
              (exec (OpGet (Val "a"%string)) s1) in
  fst (keys 4 s2) = Normal [Val "d"%string; Val "a"%string; Val "c"%string] ∧
  has (Val "b"%string) s2 = false.
Proof. vm_compute. by split_and!. Qed.

(** Scenario 4: capacity 1; [put(a,1); clear()]; then [has(a)] is false,
    [size()] is 0, and [put(b,2); get(b)] returns 2. *)
Example scenario_4 :
  let s0 := cache_of (constructor (of_Z 1)) in
  let s1 := exec OpClear (exec (OpPut (Val "a"%string) (Val 1)) s0) in
  let s2 := exec (OpPut (Val "b"%string) (Val 2)) s1 in
  has (Val "a"%string) s1 = false ∧
  size_ s1 = 0%nat ∧
  fst (get (Val "b"%string) s2) = Normal (Val 2).
Proof. vm_compute. by split_and!. Qed.

(** Scenario 3: [new LRUCache(0)] and [new LRUCache(-1)] both throw
    [InvalidCapacityError]; so do [1.5], [NaN] and [Infinity]. *)
Example scenario_3 :
  constructor (K:=string) (V:=Z) (of_Z 0) = Throw (InvalidCapacityError (of_Z 0)) ∧
  constructor (K:=string) (V:=Z) (of_Z (-1)) = Throw (InvalidCapacityError (of_Z (-1))) ∧
  constructor (K:=string) (V:=Z) (Finite (3 # 2))
  = Throw (InvalidCapacityError (Finite (3 # 2))) ∧
  constructor (K:=string) (V:=Z) NaN = Throw (InvalidCapacityError NaN) ∧
  constructor (K:=string) (V:=Z) (Infinity false)
  = Throw (InvalidCapacityError (Infinity false)).
Proof. by split_and!. Qed.

(** Scenario 5: [getSafe] on an empty cache returns [undefined]. *)
Example scenario_5 :
  getSafe (Val "a"%string) empty2 = (Normal Undefined, empty2).
Proof. reflexivity. Qed.

(** With too little fuel the model of the [keys] loop is cut off; one
    unit beyond [size()] is enough. *)
Example keys_fuel :
  fst (keys 2 full2) = OutOfFuel ∧
  fst (keys 3 full2) = Normal [Val "b"%string; Val "a"%string].
Proof. vm_compute. by split_and!. Qed.

(** *** Witnesses *)

Lemma put_at_capacity_evicts_last_witness :
  reachable full2 ∧
  Z.of_nat (size_ full2) = capacity full2 ∧
  has (Val "c"%string) full2 = false ∧
  ∃ ks last c',
    (∀ fuel, (size_ full2 < fuel)%nat →
             keys fuel full2 = (Normal (ks ++ [last]), full2)) ∧
    has last full2 = true ∧
    put (Val "c"%string) (Val 3) full2 = (Normal tt, c') ∧
    has last c' = false ∧
    has (Val "c"%string) c' = true ∧
    (∀ k', has k' c' = true
           ↔ k' = Val "c"%string ∨ (k' ≠ last ∧ has k' full2 = true)) ∧
    size_ c' = size_ full2 ∧
    Z.of_nat (size_ c') = capacity c' ∧
    (∀ fuel, (size_ c' < fuel)%nat →
             keys fuel c' = (Normal (Val "c"%string :: ks), c')).
Proof.
  split_and!; [exact full2_reachable|reflexivity|reflexivity|].
  apply (put_at_capacity_evicts_last full2 "c"%string (Val 3));
    [exact full2_reachable|reflexivity|reflexivity].
Defined.

Lemma reachable_invariant_witness :
  reachable full2 ∧
  Z.of_nat (size_ full2) ≤ capacity full2 ∧
  ∃ (ls : list loc) (ks : list (js string)),
    NoDup ls ∧
    linked (store full2) (head full2 :: ls ++ [tail full2]) ∧
    (∀ k l, cache full2 !! k = Some l ↔ l ∈ ls ∧ key_of (store full2) l = k) ∧
    length ls = size_ full2 ∧
    ks = key_of (store full2) <$> ls ∧
    (∀ fuel, (size_ full2 < fuel)%nat → keys fuel full2 = (Normal ks, full2)) ∧
    length ks = size_ full2 ∧
    NoDup ks ∧
    (∀ k, has k full2 = true ↔ k ∈ ks).
Proof.
  split; [exact full2_reachable|].
  apply (reachable_invariant full2). exact full2_reachable.
Defined.

Lemma get_moves_key_to_front_witness :
  reachable full2 ∧
  has (Val "a"%string) full2 = true ∧
  ∃ v c' ks1 ks2,
    get (Val "a"%string) full2 = (Normal v, c') ∧
    (∀ fuel, (size_ full2 < fuel)%nat →
             keys fuel full2 = (Normal (ks1 ++ Val "a"%string :: ks2), full2)) ∧
    (∀ fuel, (size_ c' < fuel)%nat →
             keys fuel c' = (Normal (Val "a"%string :: ks1 ++ ks2), c')).
Proof.
  split_and!; [exact full2_reachable|reflexivity|].
  apply (get_moves_key_to_front full2 (Val "a"%string));
    [exact full2_reachable|reflexivity].
Defined.

Lemma put_existing_updates_and_refreshes_witness :
  reachable full2 ∧
  has (Val "a"%string) full2 = true ∧
  ∃ c' v1 cg ks c'',
    put (Val "a"%string) (Val 7) full2 = (Normal tt, c') ∧
    get (Val "a"%string) full2 = (Normal v1, cg) ∧
    (∀ fuel, (size_ c' < fuel)%nat →
             keys fuel c' = (Normal (Val "a"%string :: ks), c')) ∧
    (∀ fuel, (size_ cg < fuel)%nat →
             keys fuel cg = (Normal (Val "a"%string :: ks), cg)) ∧
    size_ c' = size_ full2 ∧
    (∀ k', has k' c' = has k' full2) ∧
    get (Val "a"%string) c' = (Normal (Val 7), c'').
Proof.
  split_and!; [exact full2_reachable|reflexivity|].
  apply (put_existing_updates_and_refreshes full2 (Val "a"%string) (Val 7));
    [exact full2_reachable|reflexivity].
Defined.

Lemma put_get_round_trip_witness :
  reachable full2 ∧
  ∃ c' c'',
    put (Val "c"%string) (Val 3) full2 = (Normal tt, c') ∧
    get (Val "c"%string) c' = (Normal (Val 3), c'').
Proof.
  split; [exact full2_reachable|].
  apply (put_get_round_trip full2 "c"%string (Val 3)). exact full2_reachable.
Defined.

Lemma get_and_getSafe_on_miss_and_hit_witness :
  has (Val "z"%string) full2 = false ∧
  has (Val "a"%string) full2 = true ∧
  get (Val "z"%string) full2 = (Throw (KeyNotFoundError (Val "z"%string)), full2) ∧
  getSafe (Val "z"%string) full2 = (Normal Undefined, full2) ∧
  getSafe (Val "a"%string) full2 = get (Val "a"%string) full2.
Proof.
  split_and!; [reflexivity|reflexivity| | |].
  - apply (get_and_getSafe_on_miss_and_hit full2 (Val "z"%string));
      reflexivity.
  - apply (get_and_getSafe_on_miss_and_hit full2 (Val "z"%string));
      reflexivity.
  - apply (get_and_getSafe_on_miss_and_hit full2 (Val "a"%string));
      reflexivity.
Defined.

Lemma constructor_validates_capacity_witness :
  positive_integer (of_Z 2) ∧
  (∃ c : LRUCache string Z,
      constructor (of_Z 2) = Normal c ∧
      size_ c = 0%nat ∧
      (∀ k, has k c = false) ∧
      (∀ fuel, (0 < fuel)%nat → keys fuel c = (Normal [], c))) ∧
  ¬ positive_integer (Finite (3 # 2)) ∧
  constructor (K:=string) (V:=Z) (Finite (3 # 2))
  = Throw (InvalidCapacityError (Finite (3 # 2))).
Proof.
  assert (positive_integer (of_Z 2)) as Hpos.
  { exists 2. split; [lia|]. exists (inject_Z 2). split; reflexivity. }
  assert (¬ positive_integer (Finite (3 # 2))) as Hneg.
  { apply (constructor_validates_capacity (K:=string) (V:=Z) NaN).
    intros z. unfold Qeq. simpl. lia. }
  split_and!; [exact Hpos| |exact Hneg|].
  - apply (constructor_validates_capacity (K:=string) (V:=Z) (of_Z 2)), Hpos.
  - apply (constructor_validates_capacity (K:=string) (V:=Z) (Finite (3 # 2))), Hneg.
Defined.

Lemma reachable_operations_never_fail_witness :
  reachable full2 ∧
  (∀ k v, is_nullish k = false → ∃ c', put k v full2 = (Normal tt, c')) ∧
  (∀ k, has k full2 = true →
        ∃ v c', get k full2 = (Normal v, c') ∧ getSafe k full2 = (Normal v, c')) ∧
  (∃ c', clear full2 = (Normal tt, c')) ∧
  (∃ ks, ∀ fuel, (size_ full2 < fuel)%nat → keys fuel full2 = (Normal ks, full2)) ∧
  (∀ o e, thrown o full2 = Some e →
          (∃ k v, o = OpPut k v ∧ is_nullish k = true ∧
                  e = LRUCacheError "Key cannot be null or undefined")
          ∨ (∃ k, o = OpGet k ∧ has k full2 = false ∧
                  description_error k = None ∧ e = KeyNotFoundError k)
          ∨ (∃ k, (o = OpGet k ∨ o = OpGetSafe k) ∧ has k full2 = false ∧
                  description_error k = Some e)).
Proof.
  split; [exact full2_reachable|].
  apply (reachable_operations_never_fail full2). exact full2_reachable.
Defined.

Lemma undefined_value_is_stored_witness :
  reachable one2 ∧
  ∃ c' c'',
    put (Val "u"%string) Undefined one2 = (Normal tt, c') ∧
    has (Val "u"%string) c' = true ∧
    get (Val "u"%string) c' = (Normal Undefined, c'') ∧
    getSafe (Val "u"%string) c' = (Normal Undefined, c'') ∧
    (∀ c0 k0, has k0 c0 = false → description_error k0 = None →
              fst (getSafe k0 c0) = fst (getSafe (Val "u"%string) c') ∧
              has k0 c0 ≠ has (Val "u"%string) c' ∧
              fst (get k0 c0) = Throw (KeyNotFoundError k0) ∧
              fst (get k0 c0) ≠ fst (get (Val "u"%string) c')).
Proof.
  split; [exact one2_reachable|].
  apply (undefined_value_is_stored one2 "u"%string). exact one2_reachable.
Defined.

Lemma constructed_cache_invariant_witness :
  constructed (of_Z 2) full2 ∧
  ∃ cap : Z,
    is_integer (of_Z 2) cap ∧
    Z.of_nat (size_ full2) ≤ cap ∧
    ∃ (ls : list loc) (ks : list (js string)),
      NoDup ls ∧
      linked (store full2) (head full2 :: ls ++ [tail full2]) ∧
      (∀ k l, cache full2 !! k = Some l ↔ l ∈ ls ∧ key_of (store full2) l = k) ∧
      length ls = size_ full2 ∧
      ks = key_of (store full2) <$> ls ∧
      (∀ fuel, (size_ full2 < fuel)%nat → keys fuel full2 = (Normal ks, full2)) ∧
      length ks = size_ full2 ∧
      NoDup ks ∧
      (∀ k, has k full2 = true ↔ k ∈ ks).
Proof.
  assert (constructed (of_Z 2) full2) as Hc.
  { apply constructed_step, constructed_step, constructed_new. reflexivity. }
  split; [exact Hc|].
  apply (constructed_cache_invariant (of_Z 2) full2 Hc).
Defined.

(** *** C10 as stated fails

    The claim ends: "only has can then reliably distinguish presence".
    On the cache of capacity 2 after [put("u", undefined)], [getSafe]
    indeed answers [undefined] for the stored key ["u"] and for the
    absent key ["z"] alike, but [get] tells them apart as [has] does: it
    returns normally for ["u"] and throws [KeyNotFoundError] for ["z"]. *)
Lemma get_distinguishes_presence :
  let c := exec (OpPut (Val "u"%string) Undefined) empty2 in
  has (Val "u"%string) c = true ∧
  has (Val "z"%string) c = false ∧
  fst (getSafe (Val "u"%string) c) = fst (getSafe (Val "z"%string) c) ∧
  fst (get (Val "u"%string) c) = Normal Undefined ∧
  fst (get (Val "z"%string) c) = Throw (KeyNotFoundError (Val "z"%string)) ∧
  ¬ (fst (get (Val "u"%string) c) = fst (get (Val "z"%string) c)).
Proof. vm_compute. by split_and!. Qed.

(** *** C3 as stated fails

    The claim asks for an error of a dedicated invalid-key kind, "not
    merely a generic cache error".  On the empty cache of capacity 2,
    [put(null, 1)] throws an error whose class is the base class
    [LRUCacheError] itself. *)
Lemma put_null_key_error_is_generic :
  ¬ (∃ e c',
       put (K:=string) (V:=Z) Null (Val 1) empty2 = (Throw e, c') ∧
       class_of e ≠ CLRUCacheError).
Proof.
  intros (e & c' & Hput & Hne).
  rewrite put_nullish in Hput by reflexivity.
  injection Hput as <- _. by apply Hne.
Qed.

End Demo.

(** ** Concrete runs: caches keyed by objects

    A [Map] compares object keys by identity.  An object key is modelled
    by its identity and its shape: a plain object literal; an object that
    refers to itself, as [k] does after [const k = {}; k.self = k]; or an
    object without prototype, [Object.create(null)].  For all of them
    [typeof] is ["object"].  [JSON.stringify] throws a [TypeError] on the
    circular one and returns for the others; [String] throws a
    [TypeError] on the one without prototype, which has no [toString],
    and returns ["[object Object]"] for the others. *)

Module ObjectKeys.
Import LRU.

Inductive shape : Type :=
| Plain
| Circular
| NoPrototype.

Record object_key : Type := Obj {
  identity : nat;
  shape_of : shape
}.

#[global] Instance shape_eq_dec : EqDecision shape.
Proof. solve_decision. Defined.

#[global] Instance object_key_eq_dec : EqDecision object_key.
Proof. solve_decision. Defined.

Definition shape_code (s : shape) : nat :=
  match s with
  | Plain => 0
  | Circular => 1
  | NoPrototype => 2
  end.

Definition shape_decode (n : nat) : shape :=
  match n with
  | 0%nat => Plain
  | 1%nat => Circular
  | _ => NoPrototype
  end.

#[global] Instance object_key_countable : Countable object_key.
Proof.
  apply (inj_countable' (λ k, (identity k, shape_code (shape_of k)))
           (λ p, Obj p.1 (shape_decode p.2))).
  by intros [i []].
Defined.

#[global] Instance object_key_KeyText : KeyText object_key := {|
  typeof_object := λ _, true;
  String_throws := λ k,
    match shape_of k with
    | NoPrototype => Some TypeError
    | _ => None
    end;
  JSON_stringify_throws := λ k,
    match shape_of k with
    | Circular => Some TypeError
    | _ => None
    end
|}.

(** [new LRUCache<object, number>(2)] after [put(a, 1)], for a plain
    object [a]. *)
Definition one_object : LRUCache object_key Z :=
  let a := Val (Obj 0 Plain) in
  match constructor (of_Z 2) with
  | Normal c => exec (OpPut a (Val 1)) c
  | _ => mkCache 0 ∅ 0%nat 0%nat ∅
  end.

Lemma one_object_reachable : reachable one_object.
Proof. apply reachable_step, (reachable_new (of_Z 2)). reflexivity. Qed.

(** C7 (the failing input).  On that cache, with [k] the circular object
    of [const k = {}; k.self = k], which was never put: [get(k)] does not
    throw [KeyNotFoundError] but the [TypeError] of [JSON.stringify],
    raised while the message of the [KeyNotFoundError] is built; and
    [getSafe(k)], instead of returning [undefined], throws the same
    [TypeError].  The same calls with an absent plain object behave as
    the claim says. *)
Theorem get_of_absent_circular_key :
  let k := Val (Obj 1 Circular) in
  let plain := Val (Obj 2 Plain) in
  has k one_object = false ∧
  get k one_object = (Throw TypeError, one_object) ∧
  getSafe k one_object = (Throw TypeError, one_object) ∧
  instanceof (K:=object_key) TypeError CKeyNotFoundError = false ∧
  has plain one_object = false ∧
  get plain one_object = (Throw (KeyNotFoundError plain), one_object) ∧
  getSafe plain one_object = (Normal Undefined, one_object).
Proof. vm_compute. by split_and!. Qed.

(** The [catch] blocks convert the key with [String].  With [head.next]
    set to [null], [put] of a new key without prototype does not end with
    the wrapped "missing head link" error: [String(key)] throws while the
    wrapper is built, and that [TypeError] is what leaves [put].  The key
    is in the [Map] all the same. *)
Example put_catch_with_key_without_toString :
  let k := Val (Obj 3 NoPrototype) in
  let c := set_store (alter (with_next None) (head one_object)
                        (store one_object)) one_object in
  fst (put k (Val 2) c) = Throw TypeError ∧
  has k (snd (put k (Val 2) c)) = true ∧
  fst (put (Val (Obj 4 Plain)) (Val 2) c)
  = Throw (LRUCacheErrorWrapping "Error putting key" (Some (Val (Obj 4 Plain)))
             (LRUCacheError "Invalid cache state: missing head link")).
Proof. vm_compute. by split_and!. Qed.

End ObjectKeys.

(** ** bench.ts: the benchmark as a caller of the cache

    The benchmark times batches of calls on a [LRUCache<string, number>].
    The wall-clock measurements and the printing are outside the
    embedding; what is modelled is what the batches do to the cache. *)

Module Bench.
Import LRU.

Abbreviation BM := (@M string _ _ Z).

Notation "'let*' x := m 'in' k" := (bind m (fun x => k))
  (at level 10, x name, m at level 100, k at level 200, only parsing).
Notation "m ;; k" := (bind m (fun _ => k))
  (at level 100, k at level 200, right associativity, only parsing).

(** The template literal [`key${i}`] for a non-negative integer [i]:
    JavaScript prints an integer below [10^21] in plain decimal, which
    covers every loop index of the benchmark. *)
Definition key (i : nat) : js string := Val ("key" +:+ pretty i).

(** [`newkey${i}`] *)
Definition newkey (i : nat) : js string := Val ("newkey" +:+ pretty i).

(** [`key${i + size / 2}`]: for an odd [size] the number is a half-integer,
    and its decimal form ends in [.5]. *)
Definition mixed_key (i size : nat) : js string :=
  if Nat.even size then Val ("key" +:+ pretty (i + size / 2)%nat)
  else Val ("key" +:+ pretty (i + size / 2)%nat +:+ ".5").

(** The value [i] as a JavaScript number. *)
Definition num (i : nat) : js Z := Val (Z.of_nat i).

(** [for (let j = i; j < i + n; j++) body(j)] *)
Fixpoint for_range (i n : nat) (body : nat → BM unit) : BM unit :=
  match n with
  | O => ret tt
  | S n' => body i;; for_range (S i) n' body
  end.

Inductive operation : Type :=
| Put
| Get
| Mixed
| Eviction.

(** [runOperation(cache, operation, size)] of the first script, without
    its time measurement. *)
Definition runOperation (operation : operation) (size : nat) : BM unit :=
  match operation with
  | Put => for_range 0 size (λ i, put (key i) (num i))
  | Get => for_range 0 size (λ i, get (key i);; ret tt)
  | Mixed =>
      for_range 0 size
        (λ i, try_catch (get (mixed_key i size);; ret tt) (λ _, ret tt))
  | Eviction => for_range 0 size (λ i, put (newkey i) (num i))
  end.

(** The four batches [benchmarkCache] runs on the cache it creates for
    one [size]. *)
Definition benchmarkCache_batches (size : nat) : BM unit :=
  runOperation Put size;;
  runOperation Get size;;
  runOperation Mixed size;;
  runOperation Eviction size.

(** [benchmarkCache], for one of its sizes: [new LRUCache(size)], then the
    batches. *)
Definition benchmarkCache_for (size : nat)
  : completion string (completion string unit * LRUCache string Z) :=
  match constructor (of_Z (Z.of_nat size)) with
  | Normal cache => Normal (benchmarkCache_batches size cache)
  | Throw e => Throw e
  | Stuck => Stuck
  | OutOfFuel => OutOfFuel
  end.

(** The five batches of [runBenchmark], the second script, for one size:
    fill, read, mixed reads, update in place, eviction. *)
Definition runBenchmark_batches (size : nat) : BM unit :=
  for_range 0 size (λ i, put (key i) (num i));;
  for_range 0 size (λ i, get (key i);; ret tt);;
  for_range 0 size
    (λ i, try_catch (get (mixed_key i size);; ret tt) (λ _, ret tt));;
  for_range 0 size (λ i, put (key i) (num (i + 1)));;
  for_range 0 size (λ i, put (newkey i) (num i)).

Definition runBenchmark_for (size : nat)
  : completion string (completion string unit * LRUCache string Z) :=
  match constructor (of_Z (Z.of_nat size)) with
  | Normal cache => Normal (runBenchmark_batches size cache)
  | Throw e => Throw e
  | Stuck => Stuck
  | OutOfFuel => OutOfFuel
  end.

(** The entries [(kf j, vf j)] for [j] from [i] to [i + n - 1]. *)
Definition entries_of (kf : nat → js string) (vf : nat → js Z) (i n : nat)
  : list (js string * js Z) :=
  (λ j, (kf j, vf j)) <$> seq i n.

(** *** Keys of the benchmark *)

Lemma key_inj i j : key i = key j → i = j.
Proof.
  unfold key. intros Heq. injection Heq as Heq.
  change (pretty i = pretty j) in Heq. by apply pretty_nat_inj in Heq.
Qed.

Lemma newkey_inj i j : newkey i = newkey j → i = j.
Proof.
  unfold newkey. intros Heq. injection Heq as Heq.
  change (pretty i = pretty j) in Heq. by apply pretty_nat_inj in Heq.
Qed.

Lemma key_newkey i j : key i ≠ newkey j.
Proof.
  unfold key, newkey. intros Heq. discriminate Heq.
Qed.

Lemma key_valid i : is_nullish (key i) = false.
Proof. done. Qed.

Lemma newkey_valid i : is_nullish (newkey i) = false.
Proof. done. Qed.

(** *** Lists of entries under batches of calls *)

Lemma remove_key_absent (k : js string) (es : list (js string * js Z)) :
  k ∉ es.*1 → remove_key k es = es.
Proof.
  unfold remove_key. induction es as [|e es IH]; intros Hk; [done|].
  simpl in Hk. apply not_elem_of_cons in Hk as [Hne Hk].
  rewrite filter_cons_True by (simpl; congruence). f_equal. by apply IH.
Qed.

Lemma keys_touch_perm (k : js string) (es : list (js string * js Z)) :
  k ∈ es.*1 → NoDup es.*1 → k :: (remove_key k es).*1 ≡ₚ es.*1.
Proof.
  induction es as [|e es IH]; intros Hk Hnd; [by apply elem_of_nil in Hk|].
  simpl in Hk, Hnd. apply NoDup_cons in Hnd as [He Hnd].
  destruct (decide (e.1 = k)) as [Heq|Hne].
  - subst k. unfold remove_key. rewrite filter_cons_False by (simpl; by intros ?).
    fold (remove_key e.1 es). by rewrite remove_key_absent.
  - apply elem_of_cons in Hk as [?|Hk]; [congruence|].
    unfold remove_key. rewrite filter_cons_True by done.
    fold (remove_key k es). simpl. rewrite perm_swap. f_equiv. by apply IH.
Qed.

Lemma model_put_existing_keys cap (k : js string) (v : js Z) es :
  k ∈ es.*1 → NoDup es.*1 → (model_put cap k v es).*1 ≡ₚ es.*1.
Proof.
  intros Hk Hnd. unfold model_put.
  destruct (lookup_key k es) eqn:Hl.
  - simpl. by apply keys_touch_perm.
  - by apply lookup_key_None in Hl.
Qed.

Lemma model_get_keys (k : js string) (es : list (js string * js Z)) v es' :
  model_get k es = Some (v, es') → NoDup es.*1 → es'.*1 ≡ₚ es.*1.
Proof.
  unfold model_get. destruct (lookup_key k es) as [w|] eqn:Hl; [|done].
  intros [= <- <-] Hnd. simpl. apply keys_touch_perm; [|done].
  apply lookup_key_Some_elem in Hl.
  apply list_elem_of_fmap. by exists (k, w).
Qed.

Lemma removelast_take {A} (l : list A) m :
  (S m ≤ length l)%nat → removelast (take (S m) l) = take m l.
Proof.
  revert m. induction l as [|a l IH]; intros m Hm; [simpl in Hm; lia|].
  destruct m as [|m]; simpl.
  - by destruct l.
  - simpl in Hm. rewrite <- (IH m) by lia.
    destruct l as [|b l]; [simpl in Hm; lia|done].
Qed.

Lemma entries_of_S kf vf i n :
  entries_of kf vf i (S n) = entries_of kf vf i n ++ [(kf (i + n)%nat, vf (i + n)%nat)].
Proof. unfold entries_of. by rewrite seq_S, fmap_app. Qed.

Lemma length_entries_of kf vf i n : length (entries_of kf vf i n) = n.
Proof. unfold entries_of. by rewrite length_fmap, length_seq. Qed.

Lemma entries_of_keys kf vf i n : (entries_of kf vf i n).*1 = kf <$> seq i n.
Proof. unfold entries_of. by rewrite <- list_fmap_compose. Qed.

Lemma entries_of_fresh kf vf n j :
  (∀ a b, kf a = kf b → a = b) → (n ≤ j)%nat →
  kf j ∉ (reverse (entries_of kf vf 0 n)).*1.
Proof.
  intros Hinj Hj Hin. rewrite fmap_reverse, entries_of_keys in Hin.
  apply elem_of_reverse, list_elem_of_fmap in Hin as (i & Heq & Hi).
  apply Hinj in Heq as <-. apply elem_of_seq in Hi. lia.
Qed.

(** Filling: [m] more distinct keys put into a list that has room for
    them are stacked in front. *)
Lemma fill_fold cap kf vf :
  (∀ a b, kf a = kf b → a = b) →
  ∀ m j,
    Z.of_nat (j + m) ≤ cap →
    foldl (λ es i, model_put cap (kf i) (vf i) es)
      (reverse (entries_of kf vf 0 j)) (seq j m)
    = reverse (entries_of kf vf 0 (j + m)).
Proof.
  intros Hinj. induction m as [|m IH]; intros j Hcap.
  - by rewrite Nat.add_0_r.
  - simpl. unfold model_put at 2.
    assert (lookup_key (kf j) (reverse (entries_of kf vf 0 j)) = None) as ->.
    { apply lookup_key_None. by apply entries_of_fresh. }
    rewrite length_reverse, length_entries_of.
    destruct (Z.geb_spec (Z.of_nat j) cap); [lia|].
    replace ((kf j, vf j) :: reverse (entries_of kf vf 0 j))
      with (reverse (entries_of kf vf 0 (S j)))
      by (rewrite entries_of_S, reverse_snoc; done).
    rewrite IH by lia. by replace (S j + m)%nat with (j + S m)%nat by lia.
Qed.

(** Touching keys that are all present permutes the keys. *)
Lemma update_fold_keys cap kf vf (idx : list nat) :
  ∀ es : list (js string * js Z),
    NoDup es.*1 →
    (∀ j, j ∈ idx → kf j ∈ es.*1) →
    (foldl (λ es i, model_put cap (kf i) (vf i) es) es idx).*1 ≡ₚ es.*1.
Proof.
  induction idx as [|j idx IH]; intros es Hnd Hin; [done|].
  simpl.
  assert ((model_put cap (kf j) (vf j) es).*1 ≡ₚ es.*1) as Hp.
  { apply model_put_existing_keys; [|done]. apply Hin. by left. }
  rewrite IH.
  - done.
  - by rewrite Hp.
  - intros i Hi. rewrite Hp. apply Hin. by right.
Qed.

(** Eviction: [m] more new keys put into a full list push the oldest
    [m] entries out. *)
Lemma evict_fold kf vf n (es0 : list (js string * js Z)) :
  (∀ a b, kf a = kf b → a = b) →
  length es0 = n →
  (∀ i, kf i ∉ es0.*1) →
  ∀ m j,
    (j + m ≤ n)%nat →
    foldl (λ es i, model_put (Z.of_nat n) (kf i) (vf i) es)
      (reverse (entries_of kf vf 0 j) ++ take (n - j) es0) (seq j m)
    = reverse (entries_of kf vf 0 (j + m)) ++ take (n - (j + m)) es0.
Proof.
  intros Hinj Hlen Hnew. induction m as [|m IH]; intros j Hjm.
  - by rewrite Nat.add_0_r.
  - simpl. unfold model_put at 2.
    assert (lookup_key (kf j) (reverse (entries_of kf vf 0 j) ++ take (n - j) es0)
            = None) as ->.
    { apply lookup_key_None. rewrite fmap_app, not_elem_of_app. split.
      - by apply entries_of_fresh.
      - intros Hin. apply (Hnew j). rewrite fmap_take in Hin.
        by apply (subseteq_take (n - j)). }
    rewrite length_app, length_reverse, length_take, length_entries_of.
    destruct (Z.geb_spec (Z.of_nat (j + (n - j) `min` length es0)) (Z.of_nat n));
      [|lia].
    rewrite removelast_app.
    + replace (n - j)%nat with (S (n - S j)) by lia.
      rewrite removelast_take by lia.
      replace ((kf j, vf j) :: reverse (entries_of kf vf 0 j) ++ take (n - S j) es0)
        with (reverse (entries_of kf vf 0 (S j)) ++ take (n - S j) es0)
        by (rewrite entries_of_S, reverse_snoc; done).
      rewrite IH by lia. by replace (S j + m)%nat with (j + S m)%nat by lia.
    + intros Hnil. apply (f_equal length) in Hnil.
      rewrite length_take in Hnil. simpl in Hnil. lia.
Qed.

(** *** Batches of calls on a represented cache *)

(** [holds_exactly c es]: through its public methods the cache [c] shows
    the entries [es] and nothing else: [size()] is their number, [keys()]
    lists their keys in order, [get] returns each value, and no other key
    is present. *)
Definition holds_exactly (c : LRUCache string Z) (es : list (js string * js Z))
  : Prop :=
  size_ c = length es ∧
  (∀ fuel, (length es < fuel)%nat → keys fuel c = (Normal es.*1, c)) ∧
  (∀ k v, (k, v) ∈ es → ∃ c', get k c = (Normal v, c')) ∧
  (∀ k, has k c = true ↔ k ∈ es.*1).

Lemma lookup_key_elem (k : js string) (v : js Z) es :
  NoDup es.*1 → (k, v) ∈ es → lookup_key k es = Some v.
Proof.
  induction es as [|e es IH]; intros Hnd Hin; [by apply elem_of_nil in Hin|].
  simpl in Hnd. apply NoDup_cons in Hnd as [He Hnd].
  apply elem_of_cons in Hin as [<-|Hin]; simpl.
  - by rewrite decide_True.
  - rewrite decide_False; [by apply IH|].
    intros Heq. apply He. rewrite Heq.
    apply list_elem_of_fmap. by exists (k, v).
Qed.

Lemma represents_holds_exactly c es : represents c es → holds_exactly c es.
Proof.
  intros Hrep.
  pose proof (represents_queries c es Hrep) as (Hsz & _ & Hnd & Hhas & Hkeys & _).
  split_and!; try done.
  intros k v Hin. apply (lookup_get c es k v Hrep). by apply lookup_key_elem.
Qed.

Lemma constructor_of_nat n :
  (0 < n)%nat →
  ∃ c : LRUCache string Z,
    constructor (of_Z (Z.of_nat n)) = Normal c ∧
    capacity c = Z.of_nat n ∧
    represents c [].
Proof.
  intros Hn.
  assert (positive_integer (of_Z (Z.of_nat n))) as Hpos.
  { exists (Z.of_nat n). split; [lia|]. eexists. split; reflexivity. }
  apply positive_integer_check in Hpos.
  destruct (constructor (K:=string) (V:=Z) (of_Z (Z.of_nat n))) as [c| | |] eqn:Hc;
    try (unfold constructor in Hc; rewrite Hpos in Hc; done).
  exists c. split_and!; [done| |by eapply represents_constructor].
  unfold constructor in Hc. rewrite Hpos in Hc. injection Hc as <-.
  simpl. by rewrite Qred_inject_Z.
Qed.

Lemma puts_represents kf vf n :
  (∀ j, is_nullish (kf j) = false) →
  ∀ i c es,
    represents c es →
    ∃ c',
      for_range i n (λ j, put (kf j) (vf j)) c = (Normal tt, c') ∧
      represents c'
        (foldl (λ es j, model_put (capacity c) (kf j) (vf j) es) es (seq i n)) ∧
      capacity c' = capacity c.
Proof.
  intros Hvalid. induction n as [|n IH]; intros i c es Hrep.
  - by exists c.
  - destruct (represents_put c es (kf i) (vf i) Hrep (Hvalid i))
      as (c1 & Hput & Hrep1 & Hcap1).
    destruct (IH (S i) c1 _ Hrep1) as (c' & Hrun & Hrep' & Hcap').
    exists c'. simpl. rewrite (bind_normal _ _ _ _ _ Hput).
    rewrite Hcap1 in Hrep'. split_and!; [done|done|congruence].
Qed.

Lemma gets_represents kf n :
  ∀ i c es,
    represents c es →
    (∀ j, (i ≤ j < i + n)%nat → kf j ∈ es.*1) →
    ∃ c' es',
      for_range i n (λ j, get (kf j);; ret tt) c = (Normal tt, c') ∧
      represents c' es' ∧
      es'.*1 ≡ₚ es.*1 ∧
      capacity c' = capacity c.
Proof.
  induction n as [|n IH]; intros i c es Hrep Hin.
  - by exists c, es.
  - pose proof (represents_queries c es Hrep) as (_ & _ & Hnd & _).
    pose proof (represents_get c es (kf i) Hrep) as Hget.
    destruct (model_get (kf i) es) as [[v es1]|] eqn:Hm.
    + destruct Hget as (c1 & Hget & Hrep1 & Hcap1).
      pose proof (model_get_keys _ _ _ _ Hm Hnd) as Hp.
      destruct (IH (S i) c1 es1 Hrep1) as (c' & es' & Hrun & Hrep' & Hp' & Hcap').
      { intros j Hj. rewrite Hp. apply Hin. lia. }
      exists c', es'. simpl.
      rewrite (bind_normal _ _ _ _ _
                 (bind_normal _ (λ _, ret tt) _ _ _ Hget)).
      split_and!; [done|done|by rewrite Hp'|congruence].
    + exfalso. unfold model_get in Hm.
      destruct (lookup_key (kf i) es) eqn:Hl; [done|].
      apply lookup_key_None in Hl. apply Hl, Hin. lia.
Qed.

Lemma mixed_represents kf n :
  ∀ i c es,
    represents c es →
    ∃ c' es',
      for_range i n
        (λ j, try_catch (get (kf j);; ret tt) (λ _, ret tt)) c
      = (Normal tt, c') ∧
      represents c' es' ∧
      es'.*1 ≡ₚ es.*1 ∧
      capacity c' = capacity c.
Proof.
  induction n as [|n IH]; intros i c es Hrep.
  - by exists c, es.
  - pose proof (represents_queries c es Hrep) as (_ & _ & Hnd & _).
    pose proof (represents_get c es (kf i) Hrep) as Hget.
    destruct (model_get (kf i) es) as [[v es1]|] eqn:Hm.
    + destruct Hget as (c1 & Hget & Hrep1 & Hcap1).
      pose proof (model_get_keys _ _ _ _ Hm Hnd) as Hp.
      destruct (IH (S i) c1 es1 Hrep1) as (c' & es' & Hrun & Hrep' & Hp' & Hcap').
      exists c', es'. simpl.
      rewrite (bind_normal _ _ _ _ _
                 (try_catch_normal _ _ _ _ _
                    (bind_normal _ (λ _, ret tt) _ _ _ Hget))).
      split_and!; [done|done|by rewrite Hp'|congruence].
    + destruct (IH (S i) c es Hrep) as (c' & es' & Hrun & Hrep' & Hp' & Hcap').
      exists c', es'. simpl.
      assert (try_catch (get (kf i);; ret tt) (λ _, ret tt) c = (Normal tt, c))
        as Hstep.
      { unfold try_catch. unfold bind at 1. by rewrite Hget. }
      rewrite (bind_normal _ _ _ _ _ Hstep). done.
Qed.

Lemma fill_represents n c :
  represents c [] → capacity c = Z.of_nat n →
  ∃ c',
    for_range 0 n (λ i, put (key i) (num i)) c = (Normal tt, c') ∧
    represents c' (reverse (entries_of key num 0 n)) ∧
    capacity c' = capacity c.
Proof.
  intros Hrep Hcap.
  destruct (puts_represents key num n key_valid 0 c [] Hrep)
    as (c' & Hrun & Hrep' & Hcap').
  exists c'. split_and!; [done| |done].
  assert (Z.of_nat (0 + n) ≤ capacity c) as Hle by lia.
  pose proof (fill_fold (capacity c) key num key_inj n 0 Hle) as Hfold.
  change (reverse (entries_of key num 0 0))
    with (@nil (js string * js Z)) in Hfold.
  by rewrite Hfold in Hrep'.
Qed.

Lemma evict_represents n c es :
  represents c es → capacity c = Z.of_nat n → length es = n →
  (∀ i, newkey i ∉ es.*1) →
  ∃ c',
    for_range 0 n (λ i, put (newkey i) (num i)) c = (Normal tt, c') ∧
    represents c' (reverse (entries_of newkey num 0 n)) ∧
    capacity c' = capacity c.
Proof.
  intros Hrep Hcap Hlen Hnew.
  destruct (puts_represents newkey num n newkey_valid 0 c es Hrep)
    as (c' & Hrun & Hrep' & Hcap').
  exists c'. split_and!; [done| |done].
  assert (0 + n ≤ n)%nat as Hle by lia.
  pose proof (evict_fold newkey num n es newkey_inj Hlen Hnew n 0 Hle) as Hfold.
  change (reverse (entries_of newkey num 0 0))
    with (@nil (js string * js Z)) in Hfold.
  rewrite Nat.sub_0_r, Nat.sub_diag, take_0, app_nil_r in Hfold.
  rewrite take_ge in Hfold by lia. simpl app in Hfold.
  rewrite Hcap in Hrep'. by rewrite Hfold in Hrep'.
Qed.

Lemma perm_keys_length (es es' : list (js string * js Z)) :
  es'.*1 ≡ₚ es.*1 → length es' = length es.
Proof.
  intros Hp. apply Permutation_length in Hp. by rewrite !length_fmap in Hp.
Qed.

Lemma old_keys_no_newkey n i :
  newkey i ∉ (reverse (entries_of key num 0 n)).*1.
Proof.
  rewrite fmap_reverse, entries_of_keys, elem_of_reverse, list_elem_of_fmap.
  intros (j & Heq & _). by apply (key_newkey j i).
Qed.

Lemma old_keys_present n j :
  (j < n)%nat → key j ∈ (reverse (entries_of key num 0 n)).*1.
Proof.
  intros Hj. rewrite fmap_reverse, entries_of_keys, elem_of_reverse.
  apply list_elem_of_fmap_2, elem_of_seq. lia.
Qed.

(** X13.  The "put" batch on the cache the benchmark has just created with
    [capacity = size]: it returns normally, evicts nothing, and leaves
    exactly the [size] entries [key{i} -> i], the last one put first in
    [keys()]. *)
Theorem put_batch_fills_the_cache (n : nat) :
  (0 < n)%nat →
  ∃ c0 c1,
    constructor (of_Z (Z.of_nat n)) = Normal c0 ∧
    runOperation Put n c0 = (Normal tt, c1) ∧
    holds_exactly c1 (reverse (entries_of key num 0 n)).
Proof.
  intros Hn. destruct (constructor_of_nat n Hn) as (c0 & Hc0 & Hcap & Hrep).
  destruct (fill_represents n c0 Hrep Hcap) as (c1 & Hrun & Hrep1 & _).
  exists c0, c1. split_and!; [done|done|].
  by apply represents_holds_exactly.
Qed.

(** X14.  The "get" batch has no [try]: it relies on every [key{i}] being
    present.  On a reachable cache that holds [key{0}], ..., [key{size-1}]
    it returns normally, and leaves the size and the set of present keys
    unchanged. *)
Theorem get_batch_finds_every_key (c : LRUCache string Z) (n : nat) :
  reachable c →
  (∀ i, (i < n)%nat → has (key i) c = true) →
  ∃ c',
    runOperation Get n c = (Normal tt, c') ∧
    size_ c' = size_ c ∧
    (∀ k, has k c' = true ↔ has k c = true).
Proof.
  intros Hr Hall.
  destruct (wf_represents c (reachable_wf c Hr)) as [es Hrep].
  pose proof (represents_queries c es Hrep) as (Hsz & _ & _ & Hhas & _).
  destruct (gets_represents key n 0 c es Hrep) as (c' & es' & Hrun & Hrep' & Hp & _).
  { intros j Hj. apply Hhas, Hall. lia. }
  pose proof (represents_queries c' es' Hrep') as (Hsz' & _ & _ & Hhas' & _).
  exists c'. split_and!; [done| |].
  - by rewrite Hsz', Hsz, (perm_keys_length es es').
  - intros k. by rewrite Hhas', Hhas, Hp.
Qed.

(** X15.  The "mixed" batch swallows every miss: on any reachable cache
    and for any [size], even or odd, it returns normally and leaves the
    size and the set of present keys unchanged. *)
Theorem mixed_batch_never_throws (c : LRUCache string Z) (n : nat) :
  reachable c →
  ∃ c',
    runOperation Mixed n c = (Normal tt, c') ∧
    size_ c' = size_ c ∧
    (∀ k, has k c' = true ↔ has k c = true).
Proof.
  intros Hr.
  destruct (wf_represents c (reachable_wf c Hr)) as [es Hrep].
  pose proof (represents_queries c es Hrep) as (Hsz & _ & _ & Hhas & _).
  destruct (mixed_represents (λ i, mixed_key i n) n 0 c es Hrep)
    as (c' & es' & Hrun & Hrep' & Hp & _).
  pose proof (represents_queries c' es' Hrep') as (Hsz' & _ & _ & Hhas' & _).
  exists c'. split_and!; [done| |].
  - by rewrite Hsz', Hsz, (perm_keys_length es es').
  - intros k. by rewrite Hhas', Hhas, Hp.
Qed.

(** X16.  The "eviction" batch on a full reachable cache of capacity
    [size] that holds no [newkey{i}]: it returns normally and replaces the
    whole content, leaving exactly the entries [newkey{i} -> i]; every
    entry held before is gone. *)
Theorem eviction_batch_replaces_everything (c : LRUCache string Z) (n : nat) :
  reachable c →
  capacity c = Z.of_nat n →
  size_ c = n →
  (∀ i, has (newkey i) c = false) →
  ∃ c',
    runOperation Eviction n c = (Normal tt, c') ∧
    holds_exactly c' (reverse (entries_of newkey num 0 n)).
Proof.
  intros Hr Hcap Hsize Hnew.
  destruct (wf_represents c (reachable_wf c Hr)) as [es Hrep].
  pose proof (represents_queries c es Hrep) as (Hsz & _ & _ & Hhas & _).
  destruct (evict_represents n c es Hrep Hcap) as (c' & Hrun & Hrep' & _).
  - congruence.
  - intros i Hin. apply Hhas in Hin. by rewrite Hnew in Hin.
  - exists c'. split; [done|]. by apply represents_holds_exactly.
Qed.

(** X17.  One round of [benchmarkCache] (first script), for any
    [size > 0], in particular 100, 1000 and 10000: the constructor
    succeeds and the four batches (put, get, mixed, eviction) all return
    normally, no exception escaping although the get batch is unguarded;
    at the end the cache holds exactly [newkey{i} -> i] for [i < size]. *)
Theorem benchmarkCache_round_completes (n : nat) :
  (0 < n)%nat →
  ∃ c',
    benchmarkCache_for n = Normal (Normal tt, c') ∧
    holds_exactly c' (reverse (entries_of newkey num 0 n)).
Proof.
  intros Hn. destruct (constructor_of_nat n Hn) as (c0 & Hc0 & Hcap & Hrep).
  destruct (fill_represents n c0 Hrep Hcap) as (c1 & Hrun1 & Hrep1 & Hcap1).
  destruct (gets_represents key n 0 c1 _ Hrep1)
    as (c2 & es2 & Hrun2 & Hrep2 & Hp2 & Hcap2).
  { intros j Hj. apply old_keys_present. lia. }
  destruct (mixed_represents (λ i, mixed_key i n) n 0 c2 es2 Hrep2)
    as (c3 & es3 & Hrun3 & Hrep3 & Hp3 & Hcap3).
  destruct (evict_represents n c3 es3 Hrep3) as (c4 & Hrun4 & Hrep4 & _).
  - congruence.
  - rewrite (perm_keys_length es2 es3 Hp3), (perm_keys_length _ es2 Hp2).
    by rewrite length_reverse, length_entries_of.
  - intros i. rewrite Hp3, Hp2. apply old_keys_no_newkey.
  - exists c4. split; [|by apply represents_holds_exactly].
    unfold benchmarkCache_for. rewrite Hc0. do 2 f_equal.
    unfold benchmarkCache_batches, runOperation.
    rewrite (bind_normal _ _ _ _ _ Hrun1), (bind_normal _ _ _ _ _ Hrun2).
    by rewrite (bind_normal _ _ _ _ _ Hrun3).
Qed.

(** X18.  One round of [runBenchmark] (second script), for any
    [size > 0]: the constructor succeeds and the five batches (put, get,
    mixed, update in place, eviction) all return normally, and at the
    end the cache holds exactly [newkey{i} -> i] for [i < size]. *)
Theorem runBenchmark_round_completes (n : nat) :
  (0 < n)%nat →
  ∃ c',
    runBenchmark_for n = Normal (Normal tt, c') ∧
    holds_exactly c' (reverse (entries_of newkey num 0 n)).
Proof.
  intros Hn. destruct (constructor_of_nat n Hn) as (c0 & Hc0 & Hcap & Hrep).
  destruct (fill_represents n c0 Hrep Hcap) as (c1 & Hrun1 & Hrep1 & Hcap1).
  destruct (gets_represents key n 0 c1 _ Hrep1)
    as (c2 & es2 & Hrun2 & Hrep2 & Hp2 & Hcap2).
  { intros j Hj. apply old_keys_present. lia. }
  destruct (mixed_represents (λ i, mixed_key i n) n 0 c2 es2 Hrep2)
    as (c3 & es3 & Hrun3 & Hrep3 & Hp3 & Hcap3).
  destruct (puts_represents key (λ i, num (i + 1)) n key_valid 0 c3 es3 Hrep3)
    as (c4 & Hrun4 & Hrep4 & Hcap4).
  pose proof (represents_queries c3 es3 Hrep3) as (_ & _ & Hnd3 & _).
  assert ((foldl (λ es j, model_put (capacity c3) (key j) (num (j + 1)) es)
             es3 (seq 0 n)).*1 ≡ₚ es3.*1) as Hp4.
  { apply update_fold_keys; [done|]. intros j Hj. apply elem_of_seq in Hj.
    rewrite Hp3, Hp2. apply old_keys_present. lia. }
  destruct (evict_represents n c4 _ Hrep4) as (c5 & Hrun5 & Hrep5 & _).
  - congruence.
  - rewrite (perm_keys_length _ _ Hp4), (perm_keys_length es2 es3 Hp3),
      (perm_keys_length _ es2 Hp2).
    by rewrite length_reverse, length_entries_of.
  - intros i. rewrite Hp4, Hp3, Hp2. apply old_keys_no_newkey.
  - exists c5. split; [|by apply represents_holds_exactly].
    unfold runBenchmark_for. rewrite Hc0. do 2 f_equal.
    unfold runBenchmark_batches.
    rewrite (bind_normal _ _ _ _ _ Hrun1), (bind_normal _ _ _ _ _ Hrun2).
    by rewrite (bind_normal _ _ _ _ _ Hrun3), (bind_normal _ _ _ _ _ Hrun4).
Qed.

End Bench.

(** ** Concrete runs for the further properties *)

Module Runs.
Import LRU Demo Bench.

(** [one2] with the [prev] link of its only node set to [null]. *)
Definition unlinked : LRUCache string Z :=
  set_store (alter (with_prev None) 2%nat (store one2)) one2.

(** [empty2] with [head.next] set to [null]. *)
Definition headless : LRUCache string Z :=
  set_store (alter (with_next None) (head empty2) (store empty2)) empty2.

(** The cache of capacity 2 after [put("key0", 0); put("key1", 1)]. *)
Definition filled2 : LRUCache string Z :=
  exec (OpPut (key 1) (num 1)) (exec (OpPut (key 0) (num 0)) empty2).

Lemma filled2_reachable : reachable filled2.
Proof. apply reachable_step, reachable_step, empty2_reachable. Qed.

Lemma filled2_keys k :
  has k filled2 = true → k = key 1 ∨ k = key 0.
Proof.
  intros Hk.
  destruct (wf_represents filled2 (reachable_wf filled2 filled2_reachable))
    as [es Hrep].
  pose proof (represents_queries filled2 es Hrep)
    as (Hsz & _ & _ & Hhas & Hkeys & _).
  assert (length es = 2%nat) as Hlen by (rewrite <- Hsz; reflexivity).
  specialize (Hkeys 3%nat). rewrite Hlen in Hkeys.
  assert (keys 3 filled2 = (Normal [key 1; key 0], filled2)) as Hrun
    by (vm_compute; reflexivity).
  rewrite Hrun in Hkeys. assert (es.*1 = [key 1; key 0]) as Hes.
  { assert (3 > 2)%nat as Hgt by lia. specialize (Hkeys Hgt). congruence. }
  apply Hhas in Hk. rewrite Hes in Hk.
  apply elem_of_cons in Hk as [->|Hk]; [by left|].
  apply list_elem_of_singleton in Hk as ->. by right.
Qed.

Lemma filled2_no_newkey i : has (newkey i) filled2 = false.
Proof.
  destruct (has (newkey i) filled2) eqn:Hk; [|done].
  apply filled2_keys in Hk as [Hk|Hk]; symmetry in Hk; by apply key_newkey in Hk.
Qed.

Lemma put_new_key_with_room_witness :
  reachable one2 ∧
  has (Val "c"%string) one2 = false ∧
  Z.of_nat (size_ one2) < capacity one2 ∧
  ∃ ks c',
    (∀ fuel, (size_ one2 < fuel)%nat → keys fuel one2 = (Normal ks, one2)) ∧
    put (Val "c"%string) (Val 3) one2 = (Normal tt, c') ∧
    size_ c' = S (size_ one2) ∧
    (∀ k', has k' c' = true ↔ k' = Val "c"%string ∨ has k' one2 = true) ∧
    (∀ fuel, (size_ c' < fuel)%nat →
             keys fuel c' = (Normal (Val "c"%string :: ks), c')).
Proof.
  split_and!; [exact one2_reachable|reflexivity|reflexivity|].
  apply (put_new_key_with_room one2 "c"%string (Val 3));
    [exact one2_reachable|reflexivity|reflexivity].
Defined.

Lemma clear_empties_the_cache_witness :
  reachable full2 ∧
  ∃ c',
    clear full2 = (Normal tt, c') ∧
    capacity c' = capacity full2 ∧
    size_ c' = 0%nat ∧
    (∀ k, has k c' = false) ∧
    (∀ fuel, (0 < fuel)%nat → keys fuel c' = (Normal [], c')) ∧
    (∀ k, description_error k = None →
          get k c' = (Throw (KeyNotFoundError k), c')).
Proof.
  split; [exact full2_reachable|].
  apply (clear_empties_the_cache full2). exact full2_reachable.
Defined.

Lemma keys_is_a_pure_query_witness :
  snd (keys 3 full2) = full2 ∧
  fst (keys 3 full2) ≠ OutOfFuel ∧
  keys 7 full2 = keys 3 full2.
Proof.
  split_and!.
  - apply (keys_is_a_pure_query full2 3).
  - vm_compute. discriminate.
  - apply (keys_is_a_pure_query full2 3); [lia|].
    vm_compute. discriminate.
Defined.

Lemma every_exception_is_an_LRUCacheError_witness :
  let k := Val "a"%string in
  let e := LRUCacheErrorWrapping "Error accessing key" (Some k)
             (LRUCacheError "Invalid node state: missing links") in
  key_converts (V:=Z) (OpGet k) ∧
  thrown (OpGet k) unlinked = Some e ∧
  instanceof e CLRUCacheError = true ∧
  ((has k unlinked = false ∧ e = KeyNotFoundError k)
   ∨ ∃ cause, e = LRUCacheErrorWrapping "Error accessing key" (Some k) cause).
Proof.
  intros k e.
  assert (key_converts (V:=Z) (OpGet k)) as Hc by (split; reflexivity).
  assert (thrown (OpGet k) unlinked = Some e) as He by reflexivity.
  split_and!; [exact Hc|exact He|..];
    apply (every_exception_is_an_LRUCacheError unlinked (OpGet k) e Hc He).
Defined.


Lemma keys_on_broken_chain_witness :
  broken_chain (store headless) (head headless) [] ∧
  (tail headless ∉ @nil loc) ∧
  keys 1 headless
  = (Throw (LRUCacheErrorWrapping "Error getting keys" None
              (LRUCacheError "Invalid cache state: broken link in chain")),
     headless).
Proof.
  assert (broken_chain (store headless) (head headless) []) as Hb.
  { split; [eexists; reflexivity|reflexivity]. }
  assert (tail headless ∉ (@nil loc)) as Ht by apply not_elem_of_nil.
  split_and!; [exact Hb|exact Ht|].
  apply (keys_on_broken_chain headless [] 1 Hb Ht). simpl. lia.
Defined.



Lemma put_keeps_other_values_witness :
  let k := Val "c"%string in
  let k' := Val "b"%string in
  let cg := snd (get k' full2) in
  let c' := snd (put k (Val 3) full2) in
  reachable full2 ∧
  is_nullish k = false ∧
  k' ≠ k ∧
  get k' full2 = (Normal (Val 2), cg) ∧
  put k (Val 3) full2 = (Normal tt, c') ∧
  has k' c' = true ∧
  ∃ c'', get k' c' = (Normal (Val 2), c'').
Proof.
  intros k k' cg c'.
  assert (k' ≠ k) as Hne by discriminate.
  assert (get k' full2 = (Normal (Val 2), cg)) as Hget
    by (vm_compute; reflexivity).
  assert (put k (Val 3) full2 = (Normal tt, c')) as Hput
    by (vm_compute; reflexivity).
  assert (has k' c' = true) as Hhas by (vm_compute; reflexivity).
  split_and!; [exact full2_reachable|reflexivity|exact Hne|exact Hget|
               exact Hput|exact Hhas|].
  apply (put_keeps_other_values full2 k k' (Val 3) (Val 2) cg c');
    [exact full2_reachable|reflexivity|exact Hne|exact Hget|exact Hput|
     exact Hhas].
Defined.

Lemma get_keeps_values_witness :
  let c1 := snd (get (Val "a"%string) full2) in
  let c2 := snd (get (Val "b"%string) full2) in
  reachable full2 ∧
  get (Val "a"%string) full2 = (Normal (Val 1), c1) ∧
  get (Val "b"%string) full2 = (Normal (Val 2), c2) ∧
  ∃ c3, get (Val "b"%string) c1 = (Normal (Val 2), c3).
Proof.
  intros c1 c2.
  assert (get (Val "a"%string) full2 = (Normal (Val 1), c1)) as Ha
    by (vm_compute; reflexivity).
  assert (get (Val "b"%string) full2 = (Normal (Val 2), c2)) as Hb
    by (vm_compute; reflexivity).
  split_and!; [exact full2_reachable|exact Ha|exact Hb|].
  apply (get_keeps_values full2 (Val "a"%string) (Val "b"%string)
           (Val 1) (Val 2) c1 c2);
    [exact full2_reachable|exact Ha|exact Hb].
Defined.


Lemma put_batch_fills_the_cache_witness :
  (0 < 3)%nat ∧
  ∃ c0 c1,
    constructor (of_Z (Z.of_nat 3)) = Normal c0 ∧
    runOperation Put 3 c0 = (Normal tt, c1) ∧
    holds_exactly c1 (reverse (entries_of key num 0 3)).
Proof.
  split; [lia|]. apply (put_batch_fills_the_cache 3). lia.
Defined.

Lemma get_batch_finds_every_key_witness :
  reachable filled2 ∧
  (∀ i, (i < 2)%nat → has (key i) filled2 = true) ∧
  ∃ c',
    runOperation Get 2 filled2 = (Normal tt, c') ∧
    size_ c' = size_ filled2 ∧
    (∀ k, has k c' = true ↔ has k filled2 = true).
Proof.
  assert (∀ i, (i < 2)%nat → has (key i) filled2 = true) as Hall.
  { intros [|[|i]] Hi; [reflexivity|reflexivity|lia]. }
  split_and!; [exact filled2_reachable|exact Hall|].
  apply (get_batch_finds_every_key filled2 2 filled2_reachable Hall).
Defined.

Lemma mixed_batch_never_throws_witness :
  reachable filled2 ∧
  ∃ c',
    runOperation Mixed 3 filled2 = (Normal tt, c') ∧
    size_ c' = size_ filled2 ∧
    (∀ k, has k c' = true ↔ has k filled2 = true).
Proof.
  split; [exact filled2_reachable|].
  apply (mixed_batch_never_throws filled2 3 filled2_reachable).
Defined.

Lemma eviction_batch_replaces_everything_witness :
  reachable filled2 ∧
  capacity filled2 = Z.of_nat 2 ∧
  size_ filled2 = 2%nat ∧
  (∀ i, has (newkey i) filled2 = false) ∧
  ∃ c',
    runOperation Eviction 2 filled2 = (Normal tt, c') ∧
    holds_exactly c' (reverse (entries_of newkey num 0 2)).
Proof.
  split_and!; [exact filled2_reachable|reflexivity|reflexivity|
               exact filled2_no_newkey|].
  apply (eviction_batch_replaces_everything filled2 2);
    [exact filled2_reachable|reflexivity|reflexivity|exact filled2_no_newkey].
Defined.

Lemma benchmarkCache_round_completes_witness :
  (0 < 100)%nat ∧
  ∃ c',
    benchmarkCache_for 100 = Normal (Normal tt, c') ∧
    holds_exactly c' (reverse (entries_of newkey num 0 100)).
Proof.
  split; [lia|]. apply (benchmarkCache_round_completes 100). lia.
Defined.

Lemma runBenchmark_round_completes_witness :
  (0 < 100)%nat ∧
  ∃ c',
    runBenchmark_for 100 = Normal (Normal tt, c') ∧
    holds_exactly c' (reverse (entries_of newkey num 0 100)).
Proof.
  split; [lia|]. apply (runBenchmark_round_completes 100). lia.
Defined.

(** The benchmark on a small size, by evaluation: three keys put, read,
    read again with misses, and evicted. *)
Example benchmarkCache_for_3 :
  match benchmarkCache_for 3 with
  | Normal (Normal tt, c) =>
      fst (keys 4 c) = Normal [newkey 2; newkey 1; newkey 0] ∧
      fst (get (newkey 1) c) = Normal (num 1) ∧
      has (key 0) c = false
  | _ => False
  end.
Proof. vm_compute. by split_and!. Qed.

Example mixed_keys :
  mixed_key 0 4 = Val "key2"%string ∧ mixed_key 1 3 = Val "key2.5"%string.
Proof. vm_compute. by split. Qed.

End Runs.
